(** * ACORN front end: a shallow embedding of the browser-side scripts

    The repository's JavaScript (the three revisions of the data-handling
    script kept in [src/unnamed/part_001], [src/js/UI.js] and the inline
    script of [src/index.html]) is embedded here as Rocq functions.

    - JavaScript numbers are IEEE-754 doubles.  The embedding keeps the
      special values [NaN], [+Infinity] and [-Infinity] and their
      propagation rules, and represents every finite double by a rational
      with exact arithmetic: a finite result is never rounded, never
      overflows to an infinity and never underflows to zero, and zero is
      unsigned (it behaves as [+0]).  [Math.pow] is embedded for integral
      exponents.  The statements on the scaler are written with this in
      mind.  An equality with a formula is an equality with the
      expression the code evaluates, before rounding.  Order and bounds
      are stated weakly and for non-negative inputs, where the
      subtractions of the code cannot overflow and rounding, which is
      monotone, keeps them; nothing is stated that needs distinct inputs
      to stay distinct, or an output to be 0 or 1 only at the ends of the
      range.
    - JavaScript strings are sequences of UTF-16 code units.
    - A plain object used as a dictionary is an association list in
      property-creation order, with the [__proto__] accessor of
      [Object.prototype] and the own-property-key order of ECMAScript.
    - Arrays are lists; where aliasing matters (does a function write
      through the reference it received?) arrays live in a store indexed by
      references. *)

From Stdlib Require Import QArith Qminmax Qround Qpower Lqa Lia.
From stdpp Require Import base option list sorting strings gmap.

#[local] Set Warnings "-clear-no-such-hyp".
Local Open Scope Q_scope.

(** ** Numbers *)

Inductive number : Type :=
  | NaN
  | NegInf
  | Fin (q : Q)
  | PosInf.

(** [a < b] on numbers: false as soon as one side is [NaN]. *)
Definition js_lt (a b : number) : bool :=
  match a, b with
  | NaN, _ | _, NaN => false
  | _, NegInf => false
  | NegInf, _ => true
  | PosInf, _ => false
  | Fin _, PosInf => true
  | Fin x, Fin y => negb (Qle_bool y x)
  end.

(** [a - b]; exact on finite numbers, where the code rounds and, for
    operands of opposite signs, can overflow. *)
Definition js_sub (a b : number) : number :=
  match a, b with
  | NaN, _ | _, NaN => NaN
  | Fin x, Fin y => Fin (x - y)
  | PosInf, PosInf | NegInf, NegInf => NaN
  | PosInf, _ => PosInf
  | NegInf, _ => NegInf
  | Fin _, PosInf => NegInf
  | Fin _, NegInf => PosInf
  end.

Definition signed_inf (positive : bool) : number :=
  if positive then PosInf else NegInf.

(** [a * b]: zero times an infinity is [NaN]. *)
Definition js_mul (a b : number) : number :=
  match a, b with
  | NaN, _ | _, NaN => NaN
  | Fin x, Fin y => Fin (x * y)
  | Fin x, PosInf | PosInf, Fin x =>
      if Qeq_bool x 0 then NaN else signed_inf (Qle_bool 0 x)
  | Fin x, NegInf | NegInf, Fin x =>
      if Qeq_bool x 0 then NaN else signed_inf (negb (Qle_bool 0 x))
  | PosInf, PosInf | NegInf, NegInf => PosInf
  | PosInf, NegInf | NegInf, PosInf => NegInf
  end.

(** [a / b]: [0 / 0] and [Infinity / Infinity] are [NaN]; a non-zero
    finite number over zero is an infinity.  Exact on finite numbers,
    where the code rounds. *)
Definition js_div (a b : number) : number :=
  match a, b with
  | NaN, _ | _, NaN => NaN
  | Fin x, Fin y =>
      if Qeq_bool y 0
      then (if Qeq_bool x 0 then NaN else signed_inf (Qle_bool 0 x))
      else Fin (x / y)
  | Fin _, (PosInf | NegInf) => Fin 0
  | PosInf, Fin y => signed_inf (Qle_bool 0 y)
  | NegInf, Fin y => signed_inf (negb (Qle_bool 0 y))
  | (PosInf | NegInf), (PosInf | NegInf) => NaN
  end.

(** [Math.pow(base, exponent)] for an integral exponent.  An exponent of
    zero gives 1 whatever the base, [NaN] included.  Exact on finite
    numbers, where the code rounds and a small power underflows to 0. *)
Definition Math_pow (base : number) (exponent : Z) : number :=
  if (exponent =? 0)%Z then Fin 1 else
  match base with
  | NaN => NaN
  | Fin x =>
      if Qeq_bool x 0 && (exponent <? 0)%Z then PosInf else Fin (x ^ exponent)
  | PosInf => if (0 <? exponent)%Z then PosInf else Fin 0
  | NegInf =>
      if (0 <? exponent)%Z
      then signed_inf (Z.even exponent)
      else Fin 0
  end.

(** [Math.min(...args)]: starts from [+Infinity], answers [NaN] as soon as
    an argument is [NaN]. *)
Definition min_step (lowest n : number) : number :=
  match lowest, n with
  | NaN, _ | _, NaN => NaN
  | _, _ => if js_lt n lowest then n else lowest
  end.

Definition Math_min (args : list number) : number :=
  fold_left min_step args PosInf.

(** [Math.max(...args)]: starts from [-Infinity]. *)
Definition max_step (highest n : number) : number :=
  match highest, n with
  | NaN, _ | _, NaN => NaN
  | _, _ => if js_lt highest n then n else highest
  end.

Definition Math_max (args : list number) : number :=
  fold_left max_step args NegInf.

(** ** The association scaler, revision by revision *)

(** [src/unnamed/part_001], lines 101-115: cube of the min-max
    normalisation. *)
Module Rev1.

Definition scaleAssociations (docAssoc : list number) : list number :=
  let min := Math_min docAssoc in
  let max := Math_max docAssoc in
  let docAssoc :=
    map (fun value => js_div (js_sub value min) (js_sub max min)) docAssoc in
  let docAssoc := map (fun value => Math_pow value 3) docAssoc in
  docAssoc.

End Rev1.

(** [src/unnamed/part_001], lines 205-220: the exponent is a parameter,
    3 when the caller leaves it out. *)
Module Rev2.

Definition scaleAssociations
    (docAssoc : list number) (exp : option Z) : list number :=
  let exp := default 3%Z exp in
  let min := Math_min docAssoc in
  let max := Math_max docAssoc in
  let scaledDA :=
    map (fun value => js_div (js_sub value min) (js_sub max min)) docAssoc in
  let scaledDA := map (fun value => Math_pow value exp) scaledDA in
  scaledDA.

End Rev2.

(** [src/unnamed/part_001], lines 291-312: a scaling factor (2 when left
    out) and a clamp replace the exponent. *)
Module Rev3.

Definition scaleAssociations
    (docAssoc : list number) (scaleBy : option number) : list number :=
  let scaleBy := default (Fin 2) scaleBy in
  let min := Math_min docAssoc in
  let max := Math_max docAssoc in
  let range := js_sub max min in
  let scaledDA :=
    map (fun val =>
           let scaled := js_mul (js_sub val min) scaleBy in
           js_div scaled range)
        docAssoc in
  let scaledDA :=
    map (fun val => Math_min [Fin 1; Math_max [Fin 0; val]]) scaledDA in
  scaledDA.

End Rev3.

(** ** Strings *)

(** A string is its sequence of UTF-16 code units. *)
Definition js_string : Type := list N.

(** The code units of an ASCII literal. *)
Definition str (s : string) : js_string :=
  map Ascii.N_of_ascii (String.list_ascii_of_string s).

(** The code units [String.prototype.trim] strips: ECMAScript's WhiteSpace
    (TAB, VT, FF, ZWNBSP and the Unicode space separators) and
    LineTerminator (LF, CR, LS, PS). *)
Definition is_trim_space (c : N) : bool :=
  bool_decide
    (c ∈ [0x0009; 0x000A; 0x000B; 0x000C; 0x000D; 0x0020; 0x00A0; 0x1680;
          0x2028; 0x2029; 0x202F; 0x205F; 0x3000; 0xFEFF]%N)
  || ((0x2000 <=? c) && (c <=? 0x200A))%N.

Fixpoint trimStart (s : js_string) : js_string :=
  match s with
  | c :: s' => if is_trim_space c then trimStart s' else s
  | [] => []
  end.

Definition trimEnd (s : js_string) : js_string :=
  reverse (trimStart (reverse s)).

Definition trim (s : js_string) : js_string := trimEnd (trimStart s).

(** ** Plain objects used as dictionaries *)

(** Own properties, oldest first.  The objects of this program hold
    booleans only. *)
Definition object : Type := list (js_string * bool).

Fixpoint own_property (o : object) (key : js_string) : option bool :=
  match o with
  | (k, v) :: o' => if decide (k = key) then Some v else own_property o' key
  | [] => None
  end.

(** What a property read can give back here: a boolean of the object
    itself, a member inherited from [Object.prototype], or [undefined]. *)
Inductive js_value : Type :=
  | VUndefined
  | VBool (b : bool)
  | VInherited.

Definition proto_key : js_string := str "__proto__".

(** The property names of [Object.prototype]; all are writable data
    properties except the accessor [__proto__]. *)
Definition Object_prototype_keys : list js_string :=
  map str
    ["constructor"; "__defineGetter__"; "__defineSetter__"; "hasOwnProperty";
     "__lookupGetter__"; "__lookupSetter__"; "isPrototypeOf";
     "propertyIsEnumerable"; "toString"; "valueOf"; "__proto__";
     "toLocaleString"]%string.

(** [o[key]] *)
Definition obj_get (o : object) (key : js_string) : js_value :=
  match own_property o key with
  | Some b => VBool b
  | None =>
      if bool_decide (key ∈ Object_prototype_keys) then VInherited
      else VUndefined
  end.

Definition ToBoolean (v : js_value) : bool :=
  match v with
  | VUndefined => false
  | VBool b => b
  | VInherited => true
  end.

Fixpoint replace_property (o : object) (key : js_string) (v : bool) : object :=
  match o with
  | (k, w) :: o' =>
      if decide (k = key) then (k, v) :: o'
      else (k, w) :: replace_property o' key v
  | [] => []
  end.

(** [o[key] = v] for a boolean [v].  An own property is overwritten in
    place.  Otherwise the prototype chain decides: the setter of
    [Object.prototype.__proto__] returns without effect when handed a value
    that is neither an object nor [null], and every other key becomes a
    new own property, appended last. *)
Definition obj_set (o : object) (key : js_string) (v : bool) : object :=
  match own_property o key with
  | Some _ => replace_property o key v
  | None => if decide (key = proto_key) then o else o ++ [(key, v)]
  end.

(** A key is an array index when it is the canonical decimal form of an
    integer below [2^32 - 1]. *)
Definition is_digit (c : N) : bool := ((48 <=? c) && (c <=? 57))%N.

Definition digits_value (s : js_string) : N :=
  fold_left (fun acc c => (10 * acc + (c - 48))%N) s 0%N.

Definition array_index (key : js_string) : option N :=
  match key with
  | [] => None
  | c :: rest =>
      if forallb is_digit key
         && (negb (c =? 48)%N || bool_decide (rest = []))
         && (digits_value key <? 4294967295)%N
      then Some (digits_value key)
      else None
  end.

Definition index_le (p q : js_string * bool) : Prop :=
  (default 0 (array_index p.1) <= default 0 (array_index q.1))%N.

#[global] Instance index_le_dec p q : Decision (index_le p q).
Proof. unfold index_le. apply _. Defined.

(** Own property keys come out with the array indices first, in ascending
    numeric order, then the other keys in creation order. *)
Definition own_properties_in_order (o : object) : list (js_string * bool) :=
  merge_sort index_le (filter (fun p => is_Some (array_index p.1)) o)
  ++ filter (fun p => ¬ is_Some (array_index p.1)) o.

Definition Object_keys (o : object) : list js_string :=
  fst <$> own_properties_in_order o.

Definition Object_values (o : object) : list bool :=
  snd <$> own_properties_in_order o.

(** ** The parsed CSV and the query map *)

(** What [Papa.parse(text, {header: true})] returns, as far as the scripts
    read it: [meta.fields] is the header row, [data] one object per line;
    a line is kept as the list of its [Object.values]. *)
Record csv_meta : Type := { fields : list js_string }.
Record csv : Type := { data : list (list js_string); meta : csv_meta }.

(** [makeQueryMap] is the same text in the three revisions
    ([src/unnamed/part_001], lines 15-28, 190-203, 276-289). *)
Definition makeQueryMap (csvData : csv) : object :=
  let queryMap : object := [] in
  let headers := fields (meta csvData) in
  fold_left (fun queryMap header => obj_set queryMap (trim header) false)
            headers queryMap.

(** ** Arrays behind references *)

(** The store maps a reference to the contents of the array it denotes.
    Computations thread the store and fail on a dangling reference. *)
Module Heap.

Abbreviation ref := nat.
Abbreviation store := (gmap nat (list number)).
Definition M (A : Type) : Type := store -> option (A * store).

#[global] Instance M_ret : MRet M := fun _ x h => Some (x, h).
#[global] Instance M_bind : MBind M := fun _ _ f m h =>
  match m h with
  | Some (x, h') => f x h'
  | None => None
  end.

(** Reading the elements, as the spread [...arr] and the iteration of
    [arr.map] do. *)
Definition elements_of (arr : ref) : M (list number) :=
  fun h => match h !! arr with Some a => Some (a, h) | None => None end.

(** A new array: a reference the store does not hold yet. *)
Definition new_array (a : list number) : M ref :=
  fun h => let r := fresh (dom h) in Some (r, <[r := a]> h).

(** [arr.map(f)] builds a new array and leaves [arr] alone. *)
Definition Array_map (f : number -> number) (arr : ref) : M ref :=
  a ← elements_of arr; new_array (f <$> a).

(** [arr.fill(v)] writes into [arr] itself and returns it. *)
Definition Array_fill (v : number) (arr : ref) : M ref :=
  fun h =>
    match h !! arr with
    | Some a => Some (arr, <[arr := replicate (length a) v]> h)
    | None => None
    end.

Module Rev1.
Definition scaleAssociations (docAssoc : ref) : M ref :=
  args ← elements_of docAssoc;
  let min := Math_min args in
  args ← elements_of docAssoc;
  let max := Math_max args in
  docAssoc ←
    Array_map (fun value => js_div (js_sub value min) (js_sub max min))
              docAssoc;
  docAssoc ← Array_map (fun value => Math_pow value 3) docAssoc;
  mret docAssoc.
End Rev1.

Module Rev2.
Definition scaleAssociations (docAssoc : ref) (exp : option Z) : M ref :=
  let exp := default 3%Z exp in
  args ← elements_of docAssoc;
  let min := Math_min args in
  args ← elements_of docAssoc;
  let max := Math_max args in
  scaledDA ←
    Array_map (fun value => js_div (js_sub value min) (js_sub max min))
              docAssoc;
  scaledDA ← Array_map (fun value => Math_pow value exp) scaledDA;
  mret scaledDA.
End Rev2.

Module Rev3.
Definition scaleAssociations
    (docAssoc : ref) (scaleBy : option number) : M ref :=
  let scaleBy := default (Fin 2) scaleBy in
  args ← elements_of docAssoc;
  let min := Math_min args in
  args ← elements_of docAssoc;
  let max := Math_max args in
  let range := js_sub max min in
  scaledDA ←
    Array_map (fun val =>
                 let scaled := js_mul (js_sub val min) scaleBy in
                 js_div scaled range)
              docAssoc;
  scaledDA ←
    Array_map (fun val => Math_min [Fin 1; Math_max [Fin 0; val]])
              scaledDA;
  mret scaledDA.
End Rev3.

End Heap.

(** ** The page *)

(** The knob is an [<input type="range">].  The browser keeps its value
    sanitised: clamped to [min, max] and moved to the nearest value
    [min + k * step] inside that interval, the upper one on a tie. *)
Record range_input : Type :=
  { min_attr : Q; max_attr : Q; step_attr : Q; value : Q }.

Definition sanitize (min max step v : Q) : Q :=
  let step := if Qle_bool step 0 then 1 else step in
  let v :=
    if negb (Qle_bool min v) then min
    else if Qle_bool min max && negb (Qle_bool v max) then max
    else v in
  let nearest := Qfloor ((v - min) / step + (1 # 2)) in
  let k :=
    if Qle_bool min max
    then Z.min nearest (Qfloor ((max - min) / step))
    else nearest in
  min + inject_Z k * step.

Definition set_value (i : range_input) (v : Q) : range_input :=
  {| min_attr := min_attr i; max_attr := max_attr i; step_attr := step_attr i;
     value := sanitize (min_attr i) (max_attr i) (step_attr i) v |}.

(** [src/index.html], lines 60-72 (and [src/unnamed/part_000], lines
    43-55): [value="0.5" min="0.0001" max="1" step="0.01"]. *)
Definition normBy_input : range_input :=
  set_value
    {| min_attr := 1 # 10000; max_attr := 1; step_attr := 1 # 100;
       value := 0 |}
    (1 # 2).

(** The grid [displayCSV] leaves in [#dtmContainer]: a header cell carries
    its [text-data] attribute and whether it is highlighted; a data cell
    carries its text and the alpha channel of its background. *)
Record grid : Type :=
  { header_cells : list (js_string * bool);
    data_cells : list (list (js_string * option number)) }.

(** [displayCSV] ([src/js/UI.js], lines 1-71; [src/unnamed/part_001],
    lines 30-99), reading the globals [queryMap] and [docAssoc].  An index
    past the end of an array reads [undefined]: not highlighted for a
    header, [None] for an alpha. *)
Definition displayCSV
    (csvData : csv) (queryMap : object) (docAssoc : list number) : grid :=
  let headers := fields (meta csvData) in
  let data := data csvData in
  let selected := Object_values queryMap in
  {| header_cells :=
       imap (fun headerIndex header =>
               (trim header, default false (selected !! headerIndex)))
            headers;
     data_cells :=
       imap (fun rowIndex row =>
               map (fun value => (value, docAssoc !! rowIndex)) row)
            data |}.

(** The form data [compileForm] posts: the field of the form, then the
    two appended ones. *)
Record request : Type :=
  { normBy : Q; posted_csvData : option csv; query : list bool }.

Inductive revision : Type := R1 | R2 | R3.

(** [scaleAssociations(responseData['associations'])]: one argument, so
    the second parameter of the later revisions takes its default. *)
Definition scale_response (rev : revision) (associations : list number)
    : list number :=
  match rev with
  | R1 => Rev1.scaleAssociations associations
  | R2 => Rev2.scaleAssociations associations None
  | R3 => Rev3.scaleAssociations associations None
  end.

(** The globals of the scripts, the two page elements they read or write,
    and the requests handed to [fetch] so far. *)
Record page : Type :=
  { csvData : option csv;
    queryMap : object;
    docAssoc : list number;
    knob : range_input;
    dtmContainer : option grid;
    posted : list request }.

(** Before the CSV is loaded.  (The oldest inline script declares
    [docAssoc] without a value; nothing reads it before it is assigned.) *)
Definition initial_page : page :=
  {| csvData := None; queryMap := []; docAssoc := [];
     knob := normBy_input; dtmContainer := None; posted := [] |}.

(** [compileForm] followed by the [fetch] of [submitForm].  The response
    comes back later, as an event of its own. *)
Definition compileForm (p : page) : page :=
  let formData :=
    {| normBy := value (knob p);
       posted_csvData := csvData p;
       query := Object_values (queryMap p) |} in
  {| csvData := csvData p; queryMap := queryMap p; docAssoc := docAssoc p;
     knob := knob p; dtmContainer := dtmContainer p;
     posted := posted p ++ [formData] |}.

(** What can happen to the page: the loader of [index.html] finishes; a
    header cell is clicked; the knob fires [input] with a new raw value;
    the form is submitted; a posted request is answered, with either an
    array of numbers under [associations] or anything that makes the
    promise chain of [submitForm] reject before the assignment (network
    error, unparsable body, no array to spread). *)
Inductive event : Type :=
  | CsvLoaded (loaded : csv)
  | HeaderClick (headerIndex : nat)
  | KnobInput (v : Q)
  | FormSubmit
  | ResponseOk (associations : list number)
  | ResponseFailed.

(** One event.  The hover listeners and [updateTermsDisplayed] write only
    to [#header-display] and [#terms-displayed], which nothing reads back;
    they are left out. *)
Definition step (rev : revision) (p : page) (e : event) : page :=
  match e with
  | CsvLoaded loaded =>
      (* index.html, lines 94-107 *)
      let queryMap := makeQueryMap loaded in
      let docAssoc := replicate (length (data loaded)) (Fin 0) in
      {| csvData := Some loaded; queryMap := queryMap; docAssoc := docAssoc;
         knob := knob p;
         dtmContainer := Some (displayCSV loaded queryMap docAssoc);
         posted := posted p |}
  | HeaderClick headerIndex =>
      (* the click listener of a header cell *)
      match dtmContainer p ≫= fun g => header_cells g !! headerIndex with
      | Some (cellText, _) =>
          let flipped := negb (ToBoolean (obj_get (queryMap p) cellText)) in
          compileForm
            {| csvData := csvData p;
               queryMap := obj_set (queryMap p) cellText flipped;
               docAssoc := docAssoc p; knob := knob p;
               dtmContainer := dtmContainer p; posted := posted p |}
      | None => p
      end
  | KnobInput v =>
      compileForm
        {| csvData := csvData p; queryMap := queryMap p;
           docAssoc := docAssoc p; knob := set_value (knob p) v;
           dtmContainer := dtmContainer p; posted := posted p |}
  | FormSubmit => compileForm p
  | ResponseOk associations =>
      (* the second [then] of submitForm; [displayCSV(undefined)] fails
         on its first line, after the assignment and before it touches
         the container *)
      let docAssoc := scale_response rev associations in
      {| csvData := csvData p; queryMap := queryMap p; docAssoc := docAssoc;
         knob := knob p;
         dtmContainer :=
           match csvData p with
           | Some loaded => Some (displayCSV loaded (queryMap p) docAssoc)
           | None => dtmContainer p
           end;
         posted := posted p |}
  | ResponseFailed => p
  end.

Definition run (rev : revision) (events : list event) : page :=
  fold_left (step rev) events initial_page.

(** ** The retrieval engine

    The engine (the Python package behind the Flask endpoint) is not among
    the sources; the scripts above only post requests to it.  Its
    components are written down from the specification, sections 3, 4.1,
    4.2, 4.3 and 7. *)
Module Engine.

(** Modelled from the spec: the matrices of section 3 and the products,
    transposes and quadrants the components of section 4 are described
    with.  A matrix is its shape and its entries, exact rationals here;
    entries outside the shape are never read. *)
Record matrix : Type :=
  { nrows : nat; ncols : nat; entry : nat -> nat -> Q }.

Definition mx_eq (A B : matrix) : Prop :=
  nrows A = nrows B /\ ncols A = ncols B /\
  forall i j, (i < nrows A)%nat -> (j < ncols A)%nat ->
              entry A i j == entry B i j.

(** [f 0 + ... + f (n - 1)] *)
Definition Qsum (n : nat) (f : nat -> Q) : Q :=
  foldr (fun k acc => f k + acc) 0 (seq 0 n).

Definition transpose (A : matrix) : matrix :=
  {| nrows := ncols A; ncols := nrows A; entry i j := entry A j i |}.

Definition mmul (A B : matrix) : matrix :=
  {| nrows := nrows A; ncols := ncols B;
     entry i j := Qsum (ncols A) (fun k => entry A i k * entry B k j) |}.

Definition block_mx (UL UR DL DR : matrix) : matrix :=
  {| nrows := nrows UL + nrows DL; ncols := ncols UL + ncols UR;
     entry i j :=
       if (i <? nrows UL)%nat
       then (if (j <? ncols UL)%nat then entry UL i j
             else entry UR i (j - ncols UL))
       else (if (j <? ncols UL)%nat then entry DL (i - nrows UL) j
             else entry DR (i - nrows UL) (j - ncols UL)) |}.

Definition diag_mx (n : nat) (d : nat -> Q) : matrix :=
  {| nrows := n; ncols := n;
     entry i j := if (i =? j)%nat then d i else 0 |}.

Definition submatrix (row0 col0 rows cols : nat) (A : matrix) : matrix :=
  {| nrows := rows; ncols := cols;
     entry i j := entry A (row0 + i) (col0 + j) |}.

(** Modelled from the spec: the error taxonomy of section 7. *)
Inductive error : Type :=
  | InvalidCorpus
  | DimensionError
  | InvalidParameter
  | UninitializedBlockError.

(** The term-document matrix as the ingestion layer hands it over: one
    row of counts per document. *)
Definition of_rows (dtm : list (list N)) : matrix :=
  {| nrows := length dtm; ncols := length (hd [] dtm);
     entry d t := inject_Z (Z.of_N (nth t (nth d dtm []) 0%N)) |}.

(** Modelled from the spec: the Corpus Matrix Builder of section 4.1,
    absent from the sources.  It fails with [InvalidCorpus] on an empty
    or ragged matrix; otherwise the term-term block is the transposed
    matrix times the matrix, the document-document block the matrix
    times its transpose, and the off-diagonal quadrants are the matrix
    and its transpose. *)
Definition build_connection (dtm : list (list N)) : error + matrix :=
  let D := length dtm in
  let T := length (hd [] dtm) in
  if (D =? 0)%nat || (T =? 0)%nat
     || negb (forallb (fun row => (length row =? T)%nat) dtm)
  then inl InvalidCorpus
  else
    let X := of_rows dtm in
    inr (block_mx (mmul (transpose X) X) (transpose X)
                  X (mmul X (transpose X))).

Section Normalization.

(** [power d e] stands for the real power [d^e]. *)
Variable power : Q -> Q -> Q.

(** Modelled from the spec: the Normalization Engine of section 4.2,
    absent from the sources.  The degree of a node is its row sum; the
    rescaling matrix is diagonal with entries [degree^(-s)], and 0 for
    a node of degree 0; the result is the conjugation
    rescaling-matrix x A x rescaling-matrix.  A parameter outside
    (0,1] is rejected with [InvalidParameter], a matrix that is not
    square with [DimensionError] (section 7). *)
Definition normalize (A : matrix) (s : Q) : error + matrix :=
  if negb (Qle_bool s 0) && Qle_bool s 1 then
    if (nrows A =? ncols A)%nat then
      let degree i := Qsum (ncols A) (entry A i) in
      let rescaling :=
        diag_mx (nrows A)
          (fun i => if Qeq_bool (degree i) 0 then 0
                    else power (degree i) (- s)) in
      inr (mmul (mmul rescaling A) rescaling)
    else inl DimensionError
  else inl InvalidParameter.

(** Modelled from the spec: the Connection Block of section 4.3,
    absent from the sources: the dimensions T and D and the current
    normalized matrix, if one has been produced. *)
Record block : Type :=
  { terms : nat; documents : nat; normalized : option matrix }.

(** Modelled from the spec: construction of a block, the Builder followed
    by the Normalization Engine; no partial result on error. *)
Definition ConnectionBlock (dtm : list (list N)) (norm_by : Q)
    : error + block :=
  match build_connection dtm with
  | inl e => inl e
  | inr A =>
      match normalize A norm_by with
      | inl e => inl e
      | inr normalized_A =>
          inr {| terms := length (hd [] dtm); documents := length dtm;
                 normalized := Some normalized_A |}
      end
  end.

(** Modelled from the spec: [word_associations] of section 4.3, the
    T x T term-term quadrant of the normalized matrix. *)
Definition word_associations (b : block) : error + matrix :=
  match normalized b with
  | None => inl UninitializedBlockError
  | Some A => inr (submatrix 0 0 (terms b) (terms b) A)
  end.

(** Modelled from the spec: [document_associations] of section 4.3,
    the D x D document-document quadrant of the normalized matrix. *)
Definition document_associations (b : block) : error + matrix :=
  match normalized b with
  | None => inl UninitializedBlockError
  | Some A =>
      inr (submatrix (terms b) (terms b) (documents b) (documents b) A)
  end.

End Normalization.

(** The matrix [block.document_associations()] prints in the worked
    example of [src/docs/app_data.md], for the corpus
    [[1,1,0],[0,1,1],[1,1,1]]. *)
Definition readme_document_associations : list (list Q) :=
  [ [1.5714285; 0.42857143; 0.6875];
    [0.42857143; 1.5714285; 0.6875];
    [0.5; 0.5; 1.71875] ].

End Engine.

(** ** Vocabulary of the statements *)

(** Finite input vectors are given by their rationals.  [lower_bound m qs]
    and [upper_bound M qs]: [m] is the minimum and [M] the maximum of
    [qs]; [spread qs]: the vector holds two distinct values, that is, its
    maximum exceeds its minimum. *)
Definition lower_bound (m : Q) (qs : list Q) : Prop :=
  m ∈ qs /\ forall x, x ∈ qs -> m <= x.

Definition upper_bound (M : Q) (qs : list Q) : Prop :=
  M ∈ qs /\ forall x, x ∈ qs -> x <= M.

Definition spread (qs : list Q) : Prop :=
  exists a b, a ∈ qs /\ b ∈ qs /\ a < b.

(** [min(1, max(0, y))] on rationals. *)
Definition clamp01 (y : Q) : Q := Qmin 1 (Qmax 0 y).

(** [out] is a vector of finite numbers, the one at each position equal
    to [f] of the input at that position. *)
Definition maps_each (f : Q -> Q) (qs : list Q) (out : list number) : Prop :=
  exists outs, out = Fin <$> outs /\ Forall2 (fun x o => o == f x) qs outs.

Definition in_unit_interval (o : number) : Prop :=
  exists q, o = Fin q /\ 0 <= q /\ q <= 1.

(** The outputs are ordered as the inputs are. *)
Definition rank_preserving (qs : list Q) (out : list number) : Prop :=
  length out = length qs /\
  forall i j x y, qs !! i = Some x -> qs !! j = Some y -> x <= y ->
    exists ox oy, out !! i = Some (Fin ox) /\ out !! j = Some (Fin oy)
                  /\ ox <= oy.

(** Distinct inputs keep distinct outputs, in the same order. *)
Definition strictly_rank_preserving (qs : list Q) (out : list number) : Prop :=
  forall i j x y, qs !! i = Some x -> qs !! j = Some y -> x < y ->
    exists ox oy, out !! i = Some (Fin ox) /\ out !! j = Some (Fin oy)
                  /\ ox < oy.

(** The loop of [makeQueryMap], from any map. *)
Definition add_headers (o : object) (headers : list js_string) : object :=
  fold_left (fun queryMap header => obj_set queryMap (trim header) false)
            headers o.

(** The header names that get a key of the query map: the trimmed names,
    [__proto__] left out, each counted once. *)
Definition query_keys (csvData : csv) : list js_string :=
  remove_dups
    (filter (fun h => h <> proto_key) (trim <$> fields (meta csvData))).

Definition all_false (bs : list bool) : Prop :=
  Forall (fun b => b = false) bs.

Definition proto_csv : csv :=
  {| data := []; meta := {| fields := [str "__proto__"] |} |}.

Definition two_terms : csv :=
  {| data := [[str "1"; str "0"]; [str "0"; str "1"]];
     meta := {| fields := [str "alpha"; str " beta "] |} |}.

(** The knob has the attributes of [index.html] and a value in (0,1]. *)
Definition knob_in_range (i : range_input) : Prop :=
  min_attr i = 1 # 10000 /\ max_attr i = 1 /\ step_attr i = 1 # 100
  /\ 0 < value i /\ value i <= 1.

Definition request_in_range (r : request) : Prop :=
  0 < normBy r /\ normBy r <= 1.

(** The container is empty or shows the grid of the current [docAssoc]. *)
Definition displays_docAssoc (p : page) : Prop :=
  dtmContainer p = None
  \/ exists loaded qm,
       csvData p = Some loaded
       /\ dtmContainer p = Some (displayCSV loaded qm (docAssoc p)).

(** Events that leave the query map alone. *)
Definition keeps_queryMap (e : event) : Prop :=
  match e with
  | CsvLoaded _ | HeaderClick _ => False
  | _ => True
  end.

(** The keys of the query map are those [makeQueryMap] gave it, and the
    header cells on display are the trimmed headers of the loaded CSV. *)
Definition queryMap_in_step (p : page) : Prop :=
  match csvData p with
  | Some loaded =>
      (queryMap p).*1 = (makeQueryMap loaded).*1
      /\ forall g, dtmContainer p = Some g ->
                   (header_cells g).*1 = trim <$> fields (meta loaded)
  | None => queryMap p = [] /\ dtmContainer p = None
  end.

(** A posted query has one boolean per key of the query map of the CSV
    posted with it. *)
Definition query_fits (r : request) : Prop :=
  match posted_csvData r with
  | Some loaded => length (query r) = length (query_keys loaded)
  | None => query r = []
  end.

(** Every array of [h] is in [h'] with the same contents. *)
Definition preserved (h h' : Heap.store) : Prop :=
  forall (r : nat) (a : list number), h !! r = Some a -> h' !! r = Some a.

(** Run on [h], the computation [c] returns a reference other than [arg]
    and new to [h], to an array of contents [a']; [arg] and every other
    array of [h] are left as they were. *)
Definition leaves_argument
    (c : Heap.M nat) (h : Heap.store) (arg : nat) (a' : list number) : Prop :=
  exists r h', c h = Some (r, h') /\ r <> arg /\ h' !! arg = h !! arg
               /\ h !! r = None /\ h' !! r = Some a' /\ preserved h h'.

Definition symmetric (A : Engine.matrix) : Prop :=
  Engine.mx_eq (Engine.transpose A) A.

Definition Qsum_from (start n : nat) (f : nat -> Q) : Q :=
  foldr (fun k acc => f k + acc) 0 (seq start n).

(** A corpus the Builder accepts: at least one document, at least one
    term, every row as long as the first. *)
Definition valid_corpus (dtm : list (list N)) : Prop :=
  (0 < length dtm)%nat /\ (0 < length (hd [] dtm))%nat
  /\ Forall (fun row => length row = length (hd [] dtm)) dtm.

(** The corpus of the worked example of [src/docs/app_data.md], and a
    power function that is exact for the exponent -1. *)
Definition readme_corpus : list (list N) :=
  [[1; 1; 0]; [0; 1; 1]; [1; 1; 1]]%N.

Definition reciprocal_power (d e : Q) : Q :=
  if Qeq_bool e (-1) then / d else 1.

Definition list_transpose (M : list (list Q)) : list (list Q) :=
  imap (fun j _ => (fun row => nth j row 0) <$> M) (hd [] M).

(** ** Further vocabulary: the scaler *)

(** The smallest inputs come out as 0 and the largest as 1. *)
Definition keeps_extremes (qs : list Q) (out : list number) : Prop :=
  forall m M, lower_bound m qs -> upper_bound M qs ->
    forall i x, qs !! i = Some x ->
      exists o, out !! i = Some (Fin o)
                /\ (x == m -> o == 0) /\ (x == M -> o == 1).

(** The order of the inputs is never reversed, and the ends of the range
    are kept apart. *)
Definition order_kept (qs : list Q) (out : list number) : Prop :=
  rank_preserving qs out /\ keeps_extremes qs out.

(** The positions of a vector in the order of the values they hold, equal
    values in the order of their positions, as a stable sort leaves them:
    the sorted order of the specification. *)
Fixpoint insert_by_value (p : Q * nat) (l : list (Q * nat))
    : list (Q * nat) :=
  match l with
  | [] => [p]
  | q :: rest =>
      if Qle_bool p.1 q.1 then p :: q :: rest
      else q :: insert_by_value p rest
  end.

Definition sorted_order (l : list Q) : list nat :=
  (foldr insert_by_value [] (zip l (seq 0 (length l)))).*2.

(** ** Further vocabulary: headers and keys *)

(** The header [__proto__] between two others; no lines. *)
Definition proto_among : csv :=
  {| data := [];
     meta := {| fields := [str "alpha"; str "__proto__"; str "beta"] |} |}.

Definition all_space (s : js_string) : Prop :=
  Forall (fun c => is_trim_space c = true) s.

(** No whitespace at either end. *)
Definition no_outer_space (s : js_string) : Prop :=
  match s with [] => True | c :: _ => is_trim_space c = false end
  /\ match last s with None => True | Some c => is_trim_space c = false end.

(** [h'] is [h] with whitespace put before and after. *)
Definition padded (h h' : js_string) : Prop :=
  exists before after,
    all_space before /\ all_space after /\ h' = before ++ h ++ after.

(** The order of two keys by the array index they spell. *)
Definition index_order (k k' : js_string) : Prop :=
  (default 0 (array_index k) <= default 0 (array_index k'))%N.

(** Headers that are pairwise distinct after trimming, none of them
    [__proto__] and none the decimal form of an array index. *)
Definition plain_headers (c : csv) : Prop :=
  NoDup (trim <$> fields (meta c))
  /\ (proto_key ∉ trim <$> fields (meta c))
  /\ Forall (fun h => array_index h = None) (trim <$> fields (meta c)).

(** Headers that all spell array indices, pairwise distinct after
    trimming. *)
Definition numeric_headers (c : csv) : Prop :=
  NoDup (trim <$> fields (meta c))
  /\ Forall (fun h => is_Some (array_index h)) (trim <$> fields (meta c)).

Definition years : csv :=
  {| data := []; meta := {| fields := [str "1963"; str "1962"] |} |}.

(** ** Further vocabulary: the page *)

(** The header cell under a click, if any. *)
Definition clicked_cell (p : page) (headerIndex : nat)
    : option (js_string * bool) :=
  dtmContainer p ≫= fun g => header_cells g !! headerIndex.

(** The value of the knob is one of [min + k * step], [k] from 0 to 99. *)
Definition on_step_grid (v : Q) : Prop :=
  exists k : Z, (0 <= k <= 99)%Z /\ (v == (1 # 10000) + inject_Z k * (1 # 100))%Q.

Definition knob_on_grid (i : range_input) : Prop :=
  min_attr i = (1 # 10000)%Q /\ max_attr i = 1%Q /\ step_attr i = (1 # 100)%Q
  /\ on_step_grid (value i).

(** ** The side panel *)

(** The two elements the page scripts write and never read back: the text
    of [#header-display] and the items of the list [#terms-displayed].
    An item [<li id="HEADER-select">HEADER</li>] is kept as its header. *)
Record panel : Type :=
  { header_display : js_string; terms_displayed : list js_string }.

(** [updateHeaderCellText] ([src/js/UI.js], lines 73-80;
    [src/unnamed/part_001], lines 117-124). *)
Definition updateHeaderCellText (text : js_string) (side : panel) : panel :=
  {| header_display := text; terms_displayed := terms_displayed side |}.

(** [removeChild] of the first item with the given header, the one
    [getElementById] finds (no other element of the page has an id that
    ends in [-select]); nothing happens when there is none. *)
Fixpoint remove_item (header : js_string) (items : list js_string)
    : list js_string :=
  match items with
  | [] => []
  | item :: rest =>
      if decide (item = header) then rest
      else item :: remove_item header rest
  end.

(** [updateTermsDisplayed] ([src/js/UI.js], lines 82-102;
    [src/unnamed/part_001], lines 126-146): for every key of the query
    map, in the order of [for ... in], drop the item of that key and, when
    its flag is set, append a new one. *)
Definition updateTermsDisplayed (queryMap : object) (side : panel) : panel :=
  {| header_display := header_display side;
     terms_displayed :=
       fold_left
         (fun items header =>
            let items := remove_item header items in
            if ToBoolean (obj_get queryMap header)
            then items ++ [header] else items)
         (Object_keys queryMap) (terms_displayed side) |}.

(** The page with its side panel.  [ui_step] adds to [step] what the
    listeners of a header cell write to the panel: the hover listeners
    call [updateHeaderCellText], the click listener ends with
    [updateTermsDisplayed]. *)
Record screen : Type := { shown : page; side_panel : panel }.

Inductive ui_event : Type :=
  | OnPage (e : event)
  | MouseOver (headerIndex : nat)
  | MouseOut (headerIndex : nat).

Definition ui_step (rev : revision) (s : screen) (e : ui_event) : screen :=
  match e with
  | OnPage e =>
      let p := step rev (shown s) e in
      {| shown := p;
         side_panel :=
           match e with
           | HeaderClick headerIndex =>
               (* the last line of the click listener *)
               match clicked_cell (shown s) headerIndex with
               | Some _ => updateTermsDisplayed (queryMap p) (side_panel s)
               | None => side_panel s
               end
           | _ => side_panel s
           end |}
  | MouseOver headerIndex =>
      match clicked_cell (shown s) headerIndex with
      | Some (cellText, _) =>
          {| shown := shown s;
             side_panel := updateHeaderCellText cellText (side_panel s) |}
      | None => s
      end
  | MouseOut headerIndex =>
      match clicked_cell (shown s) headerIndex with
      | Some _ =>
          {| shown := shown s;
             side_panel := updateHeaderCellText [] (side_panel s) |}
      | None => s
      end
  end.

Definition initial_screen : screen :=
  {| shown := initial_page;
     side_panel := {| header_display := []; terms_displayed := [] |} |}.

Definition ui_run (rev : revision) (events : list ui_event) : screen :=
  fold_left (ui_step rev) events initial_screen.

(** The keys whose flag is set, in the order of the keys. *)
Definition selected_keys (queryMap : object) : list js_string :=
  filter (fun k => ToBoolean (obj_get queryMap k) = true)
         (Object_keys queryMap).

Definition not_a_load (e : ui_event) : Prop :=
  match e with OnPage (CsvLoaded _) => False | _ => True end.

(** The events of a session that reach the page scripts' globals. *)
Definition page_events (events : list ui_event) : list event :=
  omap (fun e => match e with OnPage e => Some e | _ => None end) events.

(** The display box is empty or shows a trimmed header of the CSV. *)
Definition shows_header_of (c : csv) (side : panel) : Prop :=
  header_display side = [] \/ header_display side ∈ trim <$> fields (meta c).

(** * Properties *)

(** ** Comparisons of rationals *)

Lemma Qle_bool_false (x y : Q) : Qle_bool x y = false -> y < x.
Proof.
  intros H. apply Qnot_le_lt. intros Hle.
  apply Qle_bool_iff in Hle. congruence.
Qed.

Lemma Qeq_bool_false (x y : Q) : ~ x == y -> Qeq_bool x y = false.
Proof.
  intros H. destruct (Qeq_bool x y) eqn:E; [|done].
  apply Qeq_bool_eq in E. contradiction.
Qed.

(** Split on [Qle_bool x y], with the order fact in the context. *)
Ltac Qle_cases x y E :=
  destruct (Qle_bool x y) eqn:E;
  [apply Qle_bool_iff in E | apply Qle_bool_false in E].

(** ** Minimum and maximum of a finite vector *)

Lemma fold_min_step_Fin (qs : list Q) : forall a,
  exists m, fold_left min_step (Fin <$> qs) (Fin a) = Fin m
            /\ lower_bound m (a :: qs).
Proof.
  induction qs as [|x qs IH]; intros a; simpl.
  - exists a. split; [done|]. split; [left|].
    intros x Hx. apply list_elem_of_singleton in Hx. subst. lra.
  - Qle_cases a x E; simpl.
    + destruct (IH a) as (m & Hm & Hin & Hle). exists m. split; [exact Hm|].
      split; [set_solver|].
      intros y Hy. apply elem_of_cons in Hy as [->|Hy]; [apply Hle; left|].
      apply elem_of_cons in Hy as [->|Hy]; [|apply Hle; by right].
      assert (m <= a) by (apply Hle; left). lra.
    + destruct (IH x) as (m & Hm & Hin & Hle). exists m. split; [exact Hm|].
      split; [set_solver|].
      intros y Hy. apply elem_of_cons in Hy as [->|Hy]; [|by apply Hle].
      assert (m <= x) by (apply Hle; left). lra.
Qed.

Lemma fold_max_step_Fin (qs : list Q) : forall a,
  exists M, fold_left max_step (Fin <$> qs) (Fin a) = Fin M
            /\ upper_bound M (a :: qs).
Proof.
  induction qs as [|x qs IH]; intros a; simpl.
  - exists a. split; [done|]. split; [left|].
    intros x Hx. apply list_elem_of_singleton in Hx. subst. lra.
  - Qle_cases x a E; simpl.
    + destruct (IH a) as (M & HM & Hin & Hle). exists M. split; [exact HM|].
      split; [set_solver|].
      intros y Hy. apply elem_of_cons in Hy as [->|Hy]; [apply Hle; left|].
      apply elem_of_cons in Hy as [->|Hy]; [|apply Hle; by right].
      assert (a <= M) by (apply Hle; left). lra.
    + destruct (IH x) as (M & HM & Hin & Hle). exists M. split; [exact HM|].
      split; [set_solver|].
      intros y Hy. apply elem_of_cons in Hy as [->|Hy]; [|by apply Hle].
      assert (x <= M) by (apply Hle; left). lra.
Qed.

Lemma Math_min_Fin (qs : list Q) :
  qs <> [] -> exists m, Math_min (Fin <$> qs) = Fin m /\ lower_bound m qs.
Proof.
  destruct qs as [|x qs]; [done|]. intros _.
  unfold Math_min. simpl. apply fold_min_step_Fin.
Qed.

Lemma Math_max_Fin (qs : list Q) :
  qs <> [] -> exists M, Math_max (Fin <$> qs) = Fin M /\ upper_bound M qs.
Proof.
  destruct qs as [|x qs]; [done|]. intros _.
  unfold Math_max. simpl. apply fold_max_step_Fin.
Qed.

Lemma min_max_of_spread (qs : list Q) :
  spread qs ->
  exists m M, Math_min (Fin <$> qs) = Fin m /\ Math_max (Fin <$> qs) = Fin M
              /\ lower_bound m qs /\ upper_bound M qs /\ m < M.
Proof.
  intros (a & b & Ha & Hb & Hab).
  assert (Hne : qs <> []) by (intros ->; inversion Ha).
  destruct (Math_min_Fin qs Hne) as (m & Hm & Hlow).
  destruct (Math_max_Fin qs Hne) as (M & HM & Hup).
  exists m, M. repeat split; try done; try apply Hlow; try apply Hup.
  destruct Hlow as [_ Hlow], Hup as [_ Hup].
  specialize (Hlow a Ha). specialize (Hup b Hb). lra.
Qed.

Lemma spread_0_1_2 : spread [0; 1; 2].
Proof.
  exists 0, 2. split; [|split].
  - apply list_elem_of_here.
  - do 2 apply list_elem_of_further. apply list_elem_of_here.
  - reflexivity.
Defined.

(** ** Arithmetic of the normalisation *)

Section Normalisation.

Variables m M : Q.
Hypothesis m_lt_M : m < M.

Lemma unit_interval (x : Q) :
  m <= x -> x <= M -> 0 <= (x - m) / (M - m) /\ (x - m) / (M - m) <= 1.
Proof.
  intros Hm HM. split.
  - apply Qle_shift_div_l; lra.
  - apply Qle_shift_div_r; lra.
Qed.

Lemma unit_interval_mono (x y : Q) :
  x <= y -> (x - m) / (M - m) <= (y - m) / (M - m).
Proof.
  intros Hxy. unfold Qdiv. apply Qmult_le_compat_r; [lra|].
  apply Qlt_le_weak, Qinv_lt_0_compat. lra.
Qed.

Lemma scaled_mono (k x y : Q) :
  0 <= k -> x <= y -> (x - m) * k / (M - m) <= (y - m) * k / (M - m).
Proof.
  intros Hk Hxy. unfold Qdiv. apply Qmult_le_compat_r; [nra|].
  apply Qlt_le_weak, Qinv_lt_0_compat. lra.
Qed.

Lemma scaled_nonpos (k x : Q) :
  k < 0 -> m <= x -> (x - m) * k / (M - m) <= 0.
Proof. intros Hk Hx. apply Qle_shift_div_r; [lra|nra]. Qed.

End Normalisation.

Lemma Qpower_le_mono (a b : Q) (e : Z) :
  (0 <= e)%Z -> 0 <= a -> a <= b -> a ^ e <= b ^ e.
Proof.
  intros He Ha Hab. rewrite <- (Z2Nat.id e He).
  induction (Z.to_nat e) as [|n IH].
  - simpl. lra.
  - rewrite Nat2Z.inj_succ, <- Z.add_1_r.
    rewrite !Qpower_plus' by lia. rewrite !Qpower_1_r.
    assert (0 <= a ^ Z.of_nat n) by (apply Qpower_0_le; lra).
    nra.
Qed.

Lemma power_unit_interval (t : Q) (e : Z) :
  (0 <= e)%Z -> 0 <= t -> t <= 1 -> 0 <= t ^ e /\ t ^ e <= 1.
Proof.
  intros He H0 H1. split; [by apply Qpower_0_le|].
  rewrite <- (Qpower_1 e). by apply Qpower_le_mono.
Qed.


Lemma clamp01_bounds (y : Q) : 0 <= clamp01 y /\ clamp01 y <= 1.
Proof.
  unfold clamp01. split.
  - apply Q.min_glb; [lra|apply Q.le_max_l].
  - apply Q.le_min_l.
Qed.

Lemma clamp01_mono (y z : Q) : y <= z -> clamp01 y <= clamp01 z.
Proof.
  intros H. unfold clamp01.
  apply Q.min_le_compat_l, Q.max_le_compat_l, H.
Qed.

Lemma clamp01_nonpos (y : Q) : y <= 0 -> clamp01 y == 0.
Proof.
  intros H. unfold clamp01. rewrite Q.max_l by done.
  apply Q.min_r. lra.
Qed.

(** ** What each revision of the scaler computes *)

Lemma Math_pow_Fin (t : Q) (e : Z) :
  (0 <= e)%Z -> Math_pow (Fin t) e = Fin (t ^ e).
Proof.
  intros He. unfold Math_pow.
  destruct (Z.eqb_spec e 0) as [->|Hne]; [done|].
  destruct (Z.ltb_spec e 0); [lia|]. by rewrite andb_false_r.
Qed.

Lemma clamp_Fin (y : Q) :
  exists o, Math_min [Fin 1; Math_max [Fin 0; Fin y]] = Fin o
            /\ o == clamp01 y.
Proof.
  unfold Math_min, Math_max, clamp01. simpl.
  Qle_cases y 0 E0; simpl.
  - exists 0. split; [reflexivity|].
    rewrite Q.max_l by done. rewrite Q.min_r; [reflexivity|lra].
  - Qle_cases 1 y E1; simpl.
    + exists 1. split; [done|].
      rewrite Q.max_r by lra. rewrite Q.min_l; [reflexivity|lra].
    + exists y. split; [done|].
      rewrite Q.max_r by lra. rewrite Q.min_r; [reflexivity|lra].
Qed.

Lemma maps_each_fmap (f : Q -> Q) (g : Q -> number) (qs : list Q) :
  (forall x, x ∈ qs -> exists o, g x = Fin o /\ o == f x) ->
  maps_each f qs (g <$> qs).
Proof.
  induction qs as [|x qs IH]; intros H.
  - exists []. split; [done|constructor].
  - destruct (H x) as (o & Ho & Hf); [left|].
    destruct IH as (outs & Houts & Hall).
    { intros y Hy. apply H. by right. }
    exists (o :: outs). split.
    + rewrite !fmap_cons. by rewrite Ho, Houts.
    + by constructor.
Qed.

Section Revisions.

Variable qs : list Q.
Variables m M : Q.
Hypothesis min_qs : Math_min (Fin <$> qs) = Fin m.
Hypothesis max_qs : Math_max (Fin <$> qs) = Fin M.
Hypothesis m_lt_M : m < M.

Lemma rev1_maps_each :
  maps_each (fun x => ((x - m) / (M - m)) ^ 3) qs
            (Rev1.scaleAssociations (Fin <$> qs)).
Proof.
  unfold Rev1.scaleAssociations. rewrite min_qs, max_qs.
  rewrite <- !list_fmap_compose. apply maps_each_fmap. intros x _. simpl.
  rewrite Qeq_bool_false by lra. rewrite Math_pow_Fin by lia.
  eexists. split; reflexivity.
Qed.

Lemma rev2_maps_each (exp : option Z) :
  (0 <= default 3 exp)%Z ->
  maps_each (fun x => ((x - m) / (M - m)) ^ default 3%Z exp) qs
            (Rev2.scaleAssociations (Fin <$> qs) exp).
Proof.
  intros He. unfold Rev2.scaleAssociations. rewrite min_qs, max_qs.
  rewrite <- !list_fmap_compose. apply maps_each_fmap. intros x _. simpl.
  rewrite Qeq_bool_false by lra. rewrite Math_pow_Fin by done.
  eexists. split; reflexivity.
Qed.

Lemma rev3_maps_each (k : Q) :
  maps_each (fun x => clamp01 ((x - m) * k / (M - m))) qs
            (Rev3.scaleAssociations (Fin <$> qs) (Some (Fin k))).
Proof.
  unfold Rev3.scaleAssociations. rewrite min_qs, max_qs.
  rewrite <- !list_fmap_compose. apply maps_each_fmap. intros x _. simpl.
  rewrite Qeq_bool_false by lra. apply clamp_Fin.
Qed.

End Revisions.

Lemma maps_each_in_unit_interval
    (f : Q -> Q) (qs : list Q) (out : list number) :
  maps_each f qs out ->
  (forall x, x ∈ qs -> 0 <= f x /\ f x <= 1) ->
  Forall in_unit_interval out.
Proof.
  intros (outs & -> & Hall) Hf. apply Forall_fmap.
  induction Hall as [|x o qs outs Ho Hall IH]; constructor.
  - exists o. split; [done|]. rewrite Ho. apply Hf. left.
  - apply IH. intros y Hy. apply Hf. by right.
Qed.

Lemma maps_each_rank_preserving
    (f : Q -> Q) (qs : list Q) (out : list number) :
  maps_each f qs out ->
  (forall x y, x ∈ qs -> y ∈ qs -> x <= y -> f x <= f y) ->
  rank_preserving qs out.
Proof.
  intros (outs & -> & Hall) Hf. split.
  - rewrite length_fmap. symmetry. by eapply Forall2_length.
  - intros i j x y Hi Hj Hxy.
    destruct (Forall2_lookup_l _ _ _ _ _ Hall Hi) as (ox & Hox & Ex).
    destruct (Forall2_lookup_l _ _ _ _ _ Hall Hj) as (oy & Hoy & Ey).
    exists ox, oy. rewrite !list_lookup_fmap, Hox, Hoy. repeat split.
    rewrite Ex, Ey. apply Hf; [by eapply list_elem_of_lookup_2..|done].
Qed.

(** ** The degenerate case *)

Lemma fold_min_step_constant (c : Q) (n : nat) :
  fold_left min_step (replicate n (Fin c)) (Fin c) = Fin c.
Proof.
  induction n as [|n IH]; [done|]. simpl.
  assert (E : Qle_bool c c = true) by (apply Qle_bool_iff; lra).
  by rewrite E.
Qed.

Lemma fold_max_step_constant (c : Q) (n : nat) :
  fold_left max_step (replicate n (Fin c)) (Fin c) = Fin c.
Proof.
  induction n as [|n IH]; [done|]. simpl.
  assert (E : Qle_bool c c = true) by (apply Qle_bool_iff; lra).
  by rewrite E.
Qed.

(** A non-empty constant vector comes out as all [NaN], in every
    revision called the way [submitForm] calls it. *)
Lemma constant_vector_all_NaN (rev : revision) (c : Q) (n : nat) :
  scale_response rev (replicate (S n) (Fin c)) = replicate (S n) NaN.
Proof.
  assert (Hm : Math_min (replicate (S n) (Fin c)) = Fin c).
  { unfold Math_min. simpl. apply fold_min_step_constant. }
  assert (HM : Math_max (replicate (S n) (Fin c)) = Fin c).
  { unfold Math_max. simpl. apply fold_max_step_constant. }
  assert (E : Qeq_bool (c - c) 0 = true) by (apply Qeq_eq_bool; lra).
  assert (E2 : Qeq_bool ((c - c) * 2) 0 = true) by (apply Qeq_eq_bool; lra).
  destruct rev; unfold scale_response, Rev1.scaleAssociations,
    Rev2.scaleAssociations, Rev3.scaleAssociations;
    rewrite Hm, HM; rewrite <- !list_fmap_compose, !fmap_replicate;
    cbn [compose default js_sub js_mul js_div]; rewrite ?E, ?E2; done.
Qed.

(** The answer of the engine to the all-false query is all zeros; the
    grid then gets [NaN] for every alpha. *)
Example zero_response_displays_NaN :
  dtmContainer
    (run R3 [CsvLoaded two_terms; FormSubmit; ResponseOk [Fin 0; Fin 0]])
  = Some {| header_cells := [(str "alpha", false); (str "beta", false)];
            data_cells := [[(str "1", Some NaN); (str "0", Some NaN)];
                           [(str "0", Some NaN); (str "1", Some NaN)]] |}.
Proof. reflexivity. Qed.

(** C1: scaling [5, 5, 5] gives [NaN, NaN, NaN] in each of the three
    revisions of [scaleAssociations]: the division 0/0 of the min-max
    normalisation reaches the output, where the specification asks for a
    defined constant vector. *)
Theorem scale_constant_vector_gives_NaN :
  Rev1.scaleAssociations [Fin 5; Fin 5; Fin 5] = [NaN; NaN; NaN]
  /\ Rev2.scaleAssociations [Fin 5; Fin 5; Fin 5] None = [NaN; NaN; NaN]
  /\ Rev3.scaleAssociations [Fin 5; Fin 5; Fin 5] None = [NaN; NaN; NaN].
Proof. repeat split; reflexivity. Qed.

(** ** Order and range of the scaled values *)

(** The clamp of the third revision lets distinct inputs meet at 1. *)
Remark third_revision_ties :
  Rev3.scaleAssociations [Fin 0; Fin 3; Fin 4] None = [Fin 0; Fin 1; Fin 1].
Proof. reflexivity. Qed.

Lemma maps_each_keeps_extremes
    (f : Q -> Q) (qs : list Q) (out : list number) (m M : Q) :
  lower_bound m qs -> upper_bound M qs ->
  maps_each f qs out ->
  (forall x, x == m -> f x == 0) ->
  (forall x, x == M -> f x == 1) ->
  keeps_extremes qs out.
Proof.
  intros [Hm Hlow] [HM Hup] (outs & -> & Hall) H0 H1.
  intros m' M' [Hm' Hlow'] [HM' Hup'] i x Hi.
  destruct (Forall2_lookup_l _ _ _ _ _ Hall Hi) as (o & Ho & E).
  exists o. rewrite list_lookup_fmap, Ho. split; [done|].
  assert (Em : m' == m) by (apply Qle_antisym; auto).
  assert (EM : M' == M) by (apply Qle_antisym; auto).
  split; intros Hx; rewrite E.
  - apply H0. by rewrite Hx.
  - apply H1. by rewrite Hx.
Qed.

Section Ends.

Variables m M : Q.
Hypothesis m_lt_M : m < M.

Lemma unit_at_min (x : Q) : x == m -> (x - m) / (M - m) == 0.
Proof. intros ->. field. lra. Qed.

Lemma unit_at_max (x : Q) : x == M -> (x - m) / (M - m) == 1.
Proof. intros ->. field. lra. Qed.

Lemma power_at_min (x : Q) (e : Z) :
  (0 < e)%Z -> x == m -> ((x - m) / (M - m)) ^ e == 0.
Proof.
  intros He Hx. rewrite (unit_at_min x Hx). apply Qpower_0. lia.
Qed.

Lemma power_at_max (x : Q) (e : Z) :
  x == M -> ((x - m) / (M - m)) ^ e == 1.
Proof. intros Hx. rewrite (unit_at_max x Hx). apply Qpower_1. Qed.

Lemma clamp_at_min (x k : Q) :
  x == m -> clamp01 ((x - m) * k / (M - m)) == 0.
Proof.
  intros Hx. apply clamp01_nonpos.
  assert (E : (x - m) * k / (M - m) == 0) by (rewrite Hx; field; lra).
  rewrite E. lra.
Qed.

Lemma clamp_at_max (x k : Q) :
  1 <= k -> x == M -> clamp01 ((x - m) * k / (M - m)) == 1.
Proof.
  intros Hk Hx.
  assert (E : (x - m) * k / (M - m) == k) by (rewrite Hx; field; lra).
  unfold clamp01. rewrite Q.max_r, Q.min_l by lra. reflexivity.
Qed.

End Ends.

(** C2, as the code has it: on a vector of finite non-negative numbers
    with at least two distinct values, each revision of
    [scaleAssociations] never reverses the order of two entries (whenever
    the input at position [i] is at most the input at position [j], so
    are the outputs), sends the smallest entries to 0 and the largest
    to 1.  The exponent of the second revision is taken positive, the
    factor of the third at least 1; the defaults 3 and 2 are. *)
Theorem scaleAssociations_preserves_rank_order (qs : list Q) :
  Forall (fun x => 0 <= x) qs ->
  spread qs ->
  order_kept qs (Rev1.scaleAssociations (Fin <$> qs))
  /\ (forall exp, (0 < default 3 exp)%Z ->
        order_kept qs (Rev2.scaleAssociations (Fin <$> qs) exp))
  /\ (forall scaleBy, 1 <= scaleBy ->
        order_kept qs
          (Rev3.scaleAssociations (Fin <$> qs) (Some (Fin scaleBy))))
  /\ order_kept qs (Rev3.scaleAssociations (Fin <$> qs) None).
Proof.
  intros _ Hs.
  destruct (min_max_of_spread qs Hs) as (m & M & Hm & HM & Hlow & Hup & Hlt).
  assert (H3 : forall k, 1 <= k ->
             order_kept qs
               (Rev3.scaleAssociations (Fin <$> qs) (Some (Fin k)))).
  { intros k Hk.
    pose proof (rev3_maps_each qs m M Hm HM Hlt k) as Hmap. split.
    - eapply maps_each_rank_preserving; [exact Hmap|].
      intros x y Hx Hy Hxy. cbv beta.
      apply clamp01_mono, scaled_mono; [done|lra|done].
    - eapply maps_each_keeps_extremes; [exact Hlow|exact Hup|exact Hmap| |].
      + intros x Hx. by apply clamp_at_min.
      + intros x Hx. by apply clamp_at_max. }
  assert (H2 : forall exp, (0 < default 3 exp)%Z ->
             order_kept qs (Rev2.scaleAssociations (Fin <$> qs) exp)).
  { intros exp He.
    assert (Hmap := rev2_maps_each qs m M Hm HM Hlt exp ltac:(lia)). split.
    - eapply maps_each_rank_preserving; [exact Hmap|].
      intros x y Hx Hy Hxy. cbv beta. apply Qpower_le_mono; [lia| |].
      + apply unit_interval; [done|apply Hlow|apply Hup]; done.
      + by apply unit_interval_mono.
    - eapply maps_each_keeps_extremes; [exact Hlow|exact Hup|exact Hmap| |].
      + intros x Hx. by apply power_at_min.
      + intros x Hx. by apply power_at_max. }
  split; [|split; [exact H2|split; [exact H3|apply (H3 2); lra]]].
  pose proof (rev1_maps_each qs m M Hm HM Hlt) as Hmap. split.
  - eapply maps_each_rank_preserving; [exact Hmap|].
    intros x y Hx Hy Hxy. cbv beta. apply Qpower_le_mono; [lia| |].
    + apply unit_interval; [done|apply Hlow|apply Hup]; done.
    + by apply unit_interval_mono.
  - eapply maps_each_keeps_extremes; [exact Hlow|exact Hup|exact Hmap| |].
    + intros x Hx. by apply power_at_min.
    + intros x Hx. by apply power_at_max.
Qed.

Lemma nonneg_0_1_2 : Forall (fun x => 0 <= x) [0; 1; 2].
Proof. repeat constructor; discriminate. Defined.

Lemma scaleAssociations_preserves_rank_order_witness :
  Forall (fun x => 0 <= x) [0; 1; 2]
  /\ spread [0; 1; 2]
  /\ order_kept [0; 1; 2] (Rev1.scaleAssociations [Fin 0; Fin 1; Fin 2])
  /\ order_kept [0; 1; 2]
       (Rev2.scaleAssociations [Fin 0; Fin 1; Fin 2] (Some 2%Z))
  /\ order_kept [0; 1; 2]
       (Rev3.scaleAssociations [Fin 0; Fin 1; Fin 2] None).
Proof.
  destruct (scaleAssociations_preserves_rank_order
              [0; 1; 2] nonneg_0_1_2 spread_0_1_2)
    as (H1 & H2 & _ & H3).
  split; [exact nonneg_0_1_2|]. split; [exact spread_0_1_2|].
  split; [exact H1|]. split; [|exact H3].
  apply (H2 (Some 2%Z)). simpl. lia.
Defined.

(** C2 as stated fails in the third revision: [0, 4, 3] is scaled to
    [0, 1, 1].  Sorted by their inputs the positions come as 0, 2, 1;
    sorted by their outputs as 0, 1, 2: the inputs 3 and 4 have lost their
    order. *)
Theorem third_revision_merges_ranks :
  Rev3.scaleAssociations [Fin 0; Fin 4; Fin 3] None = [Fin 0; Fin 1; Fin 1]
  /\ sorted_order [0; 4; 3] = [0; 2; 1]%nat
  /\ sorted_order [0; 1; 1] = [0; 1; 2]%nat
  /\ ~ strictly_rank_preserving [0; 4; 3]
         (Rev3.scaleAssociations [Fin 0; Fin 4; Fin 3] None).
Proof.
  split; [reflexivity|]. split; [reflexivity|]. split; [reflexivity|].
  intros H. destruct (H 2%nat 1%nat 3 4) as (ox & oy & Hx & Hy & Hlt);
    [reflexivity|reflexivity|reflexivity|].
  cbv in Hx, Hy. injection Hx as <-. injection Hy as <-.
  by apply Qlt_irrefl in Hlt.
Qed.

(** C3: on a vector of finite non-negative numbers whose maximum exceeds
    its minimum, every entry returned by [scaleAssociations] is a finite
    number of the interval [0,1], in each revision (non-negative exponent
    in the second, any finite factor in the third). *)
Theorem scaled_entries_in_unit_interval (qs : list Q) :
  Forall (fun x => 0 <= x) qs ->
  spread qs ->
  Forall in_unit_interval (Rev1.scaleAssociations (Fin <$> qs))
  /\ (forall exp, (0 <= default 3 exp)%Z ->
        Forall in_unit_interval (Rev2.scaleAssociations (Fin <$> qs) exp))
  /\ (forall scaleBy,
        Forall in_unit_interval
          (Rev3.scaleAssociations (Fin <$> qs) (Some (Fin scaleBy))))
  /\ Forall in_unit_interval (Rev3.scaleAssociations (Fin <$> qs) None).
Proof.
  intros _ Hs.
  destruct (min_max_of_spread qs Hs) as (m & M & Hm & HM & Hlow & Hup & Hlt).
  destruct Hlow as [_ Hlow], Hup as [_ Hup].
  assert (H3 : forall k,
             Forall in_unit_interval
               (Rev3.scaleAssociations (Fin <$> qs) (Some (Fin k)))).
  { intros k. eapply maps_each_in_unit_interval;
      [by apply (rev3_maps_each qs m M)|].
    intros x _. apply clamp01_bounds. }
  split; [|split; [|split]]; [| |exact H3|exact (H3 2)].
  - eapply maps_each_in_unit_interval; [by apply (rev1_maps_each qs m M)|].
    intros x Hx. cbv beta.
    apply power_unit_interval; [lia|apply unit_interval; auto..].
  - intros exp He.
    eapply maps_each_in_unit_interval; [by apply (rev2_maps_each qs m M)|].
    intros x Hx. cbv beta.
    apply power_unit_interval; [done|apply unit_interval; auto..].
Qed.

Lemma scaled_entries_in_unit_interval_witness :
  Forall (fun x => 0 <= x) [0; 1; 2]
  /\ spread [0; 1; 2]
  /\ Forall in_unit_interval (Rev1.scaleAssociations [Fin 0; Fin 1; Fin 2])
  /\ Forall in_unit_interval
       (Rev2.scaleAssociations [Fin 0; Fin 1; Fin 2] None)
  /\ Forall in_unit_interval
       (Rev3.scaleAssociations [Fin 0; Fin 1; Fin 2] None).
Proof.
  assert (Hpos : Forall (fun x => 0 <= x) [0; 1; 2]).
  { repeat constructor; discriminate. }
  destruct (scaled_entries_in_unit_interval [0; 1; 2] Hpos spread_0_1_2)
    as (H1 & H2 & _ & H3).
  split; [exact Hpos|]. split; [exact spread_0_1_2|].
  split; [exact H1|]. split; [|exact H3].
  apply (H2 None). simpl. lia.
Defined.

(** ** The procedure *)




(** ** Keys and values of the query map *)

Lemma own_properties_in_order_Permutation (o : object) :
  own_properties_in_order o ≡ₚ o.
Proof.
  unfold own_properties_in_order. rewrite merge_sort_Permutation.
  apply filter_app_complement.
Qed.

Lemma length_Object_values (o : object) :
  length (Object_values o) = length o.
Proof.
  unfold Object_values.
  by rewrite length_fmap, own_properties_in_order_Permutation.
Qed.

Lemma Object_values_Permutation (o : object) : Object_values o ≡ₚ o.*2.
Proof.
  unfold Object_values. by rewrite own_properties_in_order_Permutation.
Qed.

Lemma own_property_None (o : object) (key : js_string) :
  own_property o key = None <-> key ∉ o.*1.
Proof.
  induction o as [|[k v] o IH]; simpl.
  - split; [intros _; apply not_elem_of_nil|done].
  - destruct (decide (k = key)) as [->|Hne].
    + split; [done|]. intros H. exfalso. apply H. left.
    + rewrite IH. rewrite not_elem_of_cons. naive_solver.
Qed.

Lemma replace_property_keys (o : object) (key : js_string) (v : bool) :
  (replace_property o key v).*1 = o.*1.
Proof.
  induction o as [|[k w] o IH]; [done|]. simpl.
  destruct (decide (k = key)); simpl; [done|]. f_equal. apply IH.
Qed.

Lemma replace_property_values (o : object) (key : js_string) (v : bool) :
  Forall (fun b => b = v) o.*2 ->
  Forall (fun b => b = v) (replace_property o key v).*2.
Proof.
  induction o as [|[k w] o IH]; [done|]. simpl. intros H.
  apply Forall_cons in H as [Hw Ho].
  destruct (decide (k = key)); simpl; constructor; auto.
Qed.

(** The keys after [o[key] = v]. *)
Lemma obj_set_keys (o : object) (key : js_string) (v : bool) :
  (obj_set o key v).*1
  = if decide (key ∈ o.*1 \/ key = proto_key) then o.*1 else o.*1 ++ [key].
Proof.
  unfold obj_set. destruct (own_property o key) eqn:E.
  - rewrite replace_property_keys.
    assert (key ∈ o.*1).
    { destruct (decide (key ∈ o.*1)) as [|Hn]; [done|].
      apply own_property_None in Hn. congruence. }
    rewrite decide_True; auto.
  - apply own_property_None in E.
    destruct (decide (key = proto_key)) as [->|Hne].
    + rewrite decide_True; auto.
    + rewrite decide_False by naive_solver. by rewrite fmap_app.
Qed.

Lemma obj_set_values (o : object) (key : js_string) (v : bool) :
  Forall (fun b => b = v) o.*2 -> Forall (fun b => b = v) (obj_set o key v).*2.
Proof.
  intros H. unfold obj_set. destruct (own_property o key).
  - by apply replace_property_values.
  - destruct (decide (key = proto_key)); [done|].
    rewrite fmap_app. apply Forall_app. split; [done|]. by constructor.
Qed.

Lemma add_headers_cons
    (o : object) (h : js_string) (headers : list js_string) :
  add_headers o (h :: headers)
  = add_headers (obj_set o (trim h) false) headers.
Proof. reflexivity. Qed.

Lemma add_headers_keys (headers : list js_string) : forall o : object,
  NoDup o.*1 ->
  NoDup (add_headers o headers).*1
  /\ forall k, k ∈ (add_headers o headers).*1
               <-> k ∈ o.*1 \/ (k ∈ trim <$> headers /\ k <> proto_key).
Proof.
  induction headers as [|h headers IH]; intros o Hnd.
  - split; [done|]. intros k. rewrite fmap_nil, elem_of_nil. naive_solver.
  - rewrite add_headers_cons.
    destruct (IH (obj_set o (trim h) false)) as [Hnd' Hk].
    + rewrite obj_set_keys. case_decide; [done|].
      apply NoDup_app. split; [done|]. split; [|apply NoDup_singleton].
      intros x Hx Hx'. apply list_elem_of_singleton in Hx'. naive_solver.
    + split; [exact Hnd'|]. intros k. rewrite Hk.
      rewrite obj_set_keys, fmap_cons, elem_of_cons.
      case_decide as Hd.
      * split; [naive_solver|]. intros [?|[[ ->|?] ?]]; naive_solver.
      * rewrite elem_of_app, list_elem_of_singleton.
        split; [|naive_solver]. intros [[?| ->]|?]; naive_solver.
Qed.

Lemma add_headers_values (headers : list js_string) : forall o : object,
  all_false o.*2 -> all_false (add_headers o headers).*2.
Proof.
  induction headers as [|h headers IH]; intros o Ho; [done|].
  rewrite add_headers_cons. apply IH. by apply obj_set_values.
Qed.

Lemma makeQueryMap_keys (csvData : csv) :
  NoDup (makeQueryMap csvData).*1
  /\ forall k, k ∈ (makeQueryMap csvData).*1
               <-> k ∈ trim <$> fields (meta csvData) /\ k <> proto_key.
Proof.
  destruct (add_headers_keys (fields (meta csvData)) []) as [Hnd Hk].
  { constructor. }
  split; [exact Hnd|]. intros k. unfold makeQueryMap.
  fold (add_headers [] (fields (meta csvData))).
  rewrite Hk. rewrite fmap_nil, elem_of_nil. naive_solver.
Qed.

Lemma makeQueryMap_values_false (csvData : csv) :
  all_false (Object_values (makeQueryMap csvData)).
Proof.
  unfold all_false. rewrite Object_values_Permutation. unfold makeQueryMap.
  apply (add_headers_values _ []). constructor.
Qed.

(** ** Counting distinct headers *)

Lemma length_remove_dups_le {A} `{EqDecision A} (l : list A) :
  (length (remove_dups l) <= length l)%nat.
Proof.
  induction l as [|x l IH]; simpl; [lia|]. case_decide; simpl; lia.
Qed.

Lemma length_remove_dups_eq {A} `{EqDecision A} (l : list A) :
  length (remove_dups l) = length l <-> NoDup l.
Proof.
  induction l as [|x l IH]; simpl.
  - split; [constructor|done].
  - pose proof (length_remove_dups_le l). rewrite NoDup_cons.
    case_decide; simpl; [split; [lia|naive_solver]|].
    rewrite <- IH. split; [intros; split; [done|lia]|intros [_ ?]; lia].
Qed.

Lemma filter_all {A} (P : A -> Prop) `{forall x, Decision (P x)}
    (l : list A) :
  Forall P l -> filter P l = l.
Proof.
  induction 1 as [|x l Hx _ IH]; [done|].
  rewrite filter_cons_True by done. by f_equal.
Qed.

Lemma length_filter_eq {A} (P : A -> Prop) `{forall x, Decision (P x)}
    (l : list A) :
  length (filter P l) = length l <-> Forall P l.
Proof.
  induction l as [|x l IH].
  - split; [constructor|done].
  - pose proof (length_filter P l). rewrite filter_cons, Forall_cons.
    case_decide; simpl.
    + rewrite <- IH. split; [intros; split; [done|lia]|intros [_ ?]; lia].
    + split; [lia|naive_solver].
Qed.

Lemma makeQueryMap_length (csvData : csv) :
  length (Object_values (makeQueryMap csvData)) = length (query_keys csvData).
Proof.
  destruct (makeQueryMap_keys csvData) as [Hnd Hk].
  rewrite length_Object_values, <- (length_fmap fst).
  apply Permutation_length, NoDup_Permutation;
    [done|apply NoDup_remove_dups|].
  intros k. unfold query_keys.
  rewrite Hk, elem_of_remove_dups, list_elem_of_filter. naive_solver.
Qed.

Lemma query_keys_length_all (csvData : csv) :
  length (query_keys csvData) = length (fields (meta csvData))
  <-> NoDup (trim <$> fields (meta csvData))
      /\ proto_key ∉ trim <$> fields (meta csvData).
Proof.
  unfold query_keys. set (hs := trim <$> fields (meta csvData)).
  assert (Hhs : length hs = length (fields (meta csvData)))
    by apply length_fmap.
  rewrite <- Hhs. set (kept := filter (fun h => h <> proto_key) hs).
  pose proof (length_remove_dups_le kept) as Hle1.
  pose proof (length_filter (fun h => h <> proto_key) hs) as Hle2.
  fold kept in Hle2. split.
  - intros E.
    assert (E1 : length kept = length hs) by lia.
    assert (E2 : length (remove_dups kept) = length kept) by lia.
    apply length_filter_eq in E1. apply length_remove_dups_eq in E2.
    unfold kept in E2. rewrite (filter_all _ hs E1) in E2.
    split; [done|].
    intros Hin. rewrite Forall_forall in E1. by apply (E1 _ Hin).
  - intros [Hnd Hp].
    assert (Hall : Forall (fun h => h <> proto_key) hs).
    { apply Forall_forall. intros h Hh ->. contradiction. }
    unfold kept. rewrite (filter_all _ hs Hall).
    by apply length_remove_dups_eq.
Qed.

(** ** The knob *)

Lemma Qfloor_nonneg (x : Q) : 0 <= x -> (0 <= Qfloor x)%Z.
Proof. intros H. apply (Qfloor_resp_le 0 x H). Qed.

(** A sanitised value lies between the bounds of the input. *)
Lemma sanitize_bounds (min max step v : Q) :
  min <= max ->
  min <= sanitize min max step v /\ sanitize min max step v <= max.
Proof.
  intros Hmm. unfold sanitize.
  assert (Emm : Qle_bool min max = true) by by apply Qle_bool_iff.
  rewrite Emm. cbn [andb].
  set (st := if Qle_bool step 0 then 1 else step).
  assert (Hst : 0 < st).
  { unfold st. Qle_cases step 0 E; [reflexivity|done]. }
  set (w := if negb (Qle_bool min v) then min
            else if negb (Qle_bool v max) then max else v).
  assert (Hw : min <= w /\ w <= max).
  { unfold w. Qle_cases min v E1; simpl; [|lra].
    Qle_cases v max E2; simpl; lra. }
  set (nearest := Qfloor ((w - min) / st + (1 # 2))).
  set (K := Qfloor ((max - min) / st)).
  assert (Hn : (0 <= nearest)%Z).
  { apply Qfloor_nonneg.
    assert (0 <= (w - min) / st) by (apply Qle_shift_div_l; lra). lra. }
  assert (HK : (0 <= K)%Z).
  { apply Qfloor_nonneg. apply Qle_shift_div_l; lra. }
  assert (HKst : inject_Z K * st <= max - min).
  { assert (E : (max - min) / st * st == max - min) by (field; lra).
    rewrite <- E. apply Qmult_le_compat_r; [apply Qfloor_le|lra]. }
  assert (Hk0 : 0 <= inject_Z (Z.min nearest K)).
  { change 0 with (inject_Z 0). rewrite <- Zle_Qle. lia. }
  assert (HkK : inject_Z (Z.min nearest K) <= inject_Z K).
  { rewrite <- Zle_Qle. lia. }
  split; nra.
Qed.

Lemma set_value_in_range (i : range_input) (v : Q) :
  knob_in_range i -> knob_in_range (set_value i v).
Proof.
  intros (Hmin & Hmax & Hstep & _). unfold knob_in_range, set_value. simpl.
  split; [done|]. split; [done|]. split; [done|].
  rewrite Hmin, Hmax, Hstep.
  destruct (sanitize_bounds (1 # 10000) 1 (1 # 100) v) as [Hlo Hhi];
    [discriminate|].
  split; [|exact Hhi]. eapply Qlt_le_trans; [|exact Hlo]. reflexivity.
Qed.

Lemma normBy_input_in_range : knob_in_range normBy_input.
Proof. repeat split; try reflexivity. discriminate. Qed.

(** The steps start at [min], so the knob turned all the way up stops one
    step short of [max]; the initial 0.5 sits on 0.5001. *)
Example knob_extremes :
  value (set_value normBy_input 1) == 9901 # 10000
  /\ value (set_value normBy_input 0) == 1 # 10000
  /\ value normBy_input == 5001 # 10000.
Proof. repeat split; reflexivity. Qed.

(** ** Invariants of the page *)

Lemma displayCSV_header_texts (c : csv) (qm : object) (d : list number) :
  (header_cells (displayCSV c qm d)).*1 = trim <$> fields (meta c).
Proof.
  unfold displayCSV. cbn [header_cells]. generalize (Object_values qm).
  intros selected. rewrite fmap_imap.
  generalize (fields (meta c)). intros l.
  apply list_eq. intros i. rewrite list_lookup_imap, list_lookup_fmap.
  by destruct (l !! i).
Qed.

(** In the grid of [displayCSV], the alpha of every cell of row
    [rowIndex] is [docAssoc[rowIndex]]. *)
Lemma displayCSV_alpha (c : csv) (qm : object) (d : list number)
    (rowIndex : nat) (row : list (js_string * option number)) :
  data_cells (displayCSV c qm d) !! rowIndex = Some row ->
  Forall (fun cell => cell.2 = d !! rowIndex) row.
Proof.
  unfold displayCSV. cbn [data_cells]. rewrite list_lookup_imap.
  destruct (data c !! rowIndex) as [cells|]; [|done]. simpl.
  intros [= <-]. apply Forall_fmap. by apply Forall_true.
Qed.

Lemma header_click_keeps_keys
    (o : object) (loaded : csv) (cellText : js_string) (v : bool) :
  o.*1 = (makeQueryMap loaded).*1 ->
  cellText ∈ trim <$> fields (meta loaded) ->
  (obj_set o cellText v).*1 = o.*1.
Proof.
  intros Hk Hin. rewrite obj_set_keys. rewrite decide_True; [done|].
  destruct (decide (cellText = proto_key)) as [|Hne]; [by right|left].
  rewrite Hk. by apply makeQueryMap_keys.
Qed.

Lemma compileForm_in_range (p : page) :
  knob_in_range (knob p) -> Forall request_in_range (posted p) ->
  knob_in_range (knob (compileForm p))
  /\ Forall request_in_range (posted (compileForm p)).
Proof.
  intros Hk Hp. split; [done|]. simpl. apply Forall_app. split; [done|].
  constructor; [|constructor]. destruct Hk as (_ & _ & _ & Hv). exact Hv.
Qed.

Lemma compileForm_fits (p : page) :
  queryMap_in_step p -> Forall query_fits (posted p) ->
  queryMap_in_step (compileForm p)
  /\ Forall query_fits (posted (compileForm p)).
Proof.
  intros Hq Hp. split; [done|]. cbn [compileForm posted].
  apply Forall_app. split; [done|]. constructor; [|constructor].
  unfold query_fits, queryMap_in_step in *. cbn [posted_csvData query].
  destruct (csvData p) as [loaded|].
  - destruct Hq as [Hk _]. rewrite length_Object_values.
    rewrite <- (length_fmap fst), Hk, length_fmap, <- length_Object_values.
    apply makeQueryMap_length.
  - destruct Hq as [-> _]. done.
Qed.

Section PageInvariants.

Variable rev : revision.

(** An invariant of [step] that holds of the initial page holds after
    every sequence of events. *)
Lemma run_invariant (P : page -> Prop) :
  P initial_page ->
  (forall p e, P p -> P (step rev p e)) ->
  forall events, P (run rev events).
Proof.
  intros H0 Hstep events. unfold run.
  induction events as [|e events IH] using rev_ind; [done|].
  rewrite fold_left_app. by apply Hstep.
Qed.

Lemma step_in_range (p : page) (e : event) :
  knob_in_range (knob p) /\ Forall request_in_range (posted p) ->
  knob_in_range (knob (step rev p e))
  /\ Forall request_in_range (posted (step rev p e)).
Proof.
  intros [Hk Hp]. destruct e; cbn [step]; try done.
  - destruct (dtmContainer p ≫= _) as [[cellText ?]|]; [|done].
    by apply compileForm_in_range.
  - apply compileForm_in_range; [|done]. by apply set_value_in_range.
  - by apply compileForm_in_range.
Qed.

Lemma step_fits (p : page) (e : event) :
  queryMap_in_step p /\ Forall query_fits (posted p) ->
  queryMap_in_step (step rev p e)
  /\ Forall query_fits (posted (step rev p e)).
Proof.
  intros [Hq Hp]. destruct e; cbn [step].
  - split; [|done]. unfold queryMap_in_step.
    cbn [csvData queryMap dtmContainer].
    split; [done|]. intros g [= <-]. apply displayCSV_header_texts.
  - destruct (dtmContainer p ≫= _) as [[cellText highlighted]|] eqn:E;
      [|done].
    apply compileForm_fits; [|done].
    unfold queryMap_in_step in *. cbn [csvData queryMap dtmContainer].
    destruct (csvData p) as [loaded|].
    + destruct Hq as [Hk Hg]. split; [|done].
      destruct (dtmContainer p) as [g|]; [|done]. cbn in E.
      rewrite (header_click_keeps_keys _ loaded); [done..|].
      rewrite <- (Hg g eq_refl).
      apply list_elem_of_fmap. exists (cellText, highlighted).
      split; [done|]. by eapply list_elem_of_lookup_2.
    + destruct Hq as [_ Hg]. by rewrite Hg in E.
  - by apply compileForm_fits.
  - by apply compileForm_fits.
  - split; [|done]. unfold queryMap_in_step in *.
    cbn [csvData queryMap dtmContainer].
    destruct (csvData p) as [loaded|]; [|done].
    destruct Hq as [Hk Hg]. split; [done|]. intros g [= <-].
    apply displayCSV_header_texts.
  - done.
Qed.

Lemma posted_queries_fit (events : list event) :
  Forall query_fits (posted (run rev events)).
Proof.
  cut (queryMap_in_step (run rev events)
       /\ Forall query_fits (posted (run rev events))); [tauto|].
  apply (run_invariant
           (fun p => queryMap_in_step p /\ Forall query_fits (posted p))).
  - split; [done|constructor].
  - intros p e. apply step_fits.
Qed.

Lemma keeps_queryMap_requests (events : list event) :
  Forall keeps_queryMap events ->
  forall p, exists new,
    posted (fold_left (step rev) events p) = posted p ++ new
    /\ queryMap (fold_left (step rev) events p) = queryMap p
    /\ Forall (fun r => query r = Object_values (queryMap p)) new.
Proof.
  induction 1 as [|e events He _ IH]; intros p.
  - exists []. by rewrite app_nil_r.
  - cbn [fold_left]. destruct (IH (step rev p e)) as (new & Hp & Hq & Hn).
    rewrite Hp, Hq. destruct e; try done; cbn [step]; cbn [step] in Hn.
    + exists ({| normBy := value (set_value (knob p) v);
                 posted_csvData := csvData p;
                 query := Object_values (queryMap p) |} :: new).
      cbn [compileForm posted queryMap]. rewrite <- app_assoc.
      split; [done|]. split; [done|]. by constructor.
    + exists ({| normBy := value (knob p);
                 posted_csvData := csvData p;
                 query := Object_values (queryMap p) |} :: new).
      cbn [compileForm posted queryMap]. rewrite <- app_assoc.
      split; [done|]. split; [done|]. by constructor.
    + exists new. done.
    + exists new. done.
Qed.

End PageInvariants.

(** ** Requests and display *)

(** C5: every request the page posts carries a [normBy] strictly above 0
    and at most 1, whatever the events (knob inputs included) that led to
    it: the range input keeps its value within its [min] and [max]. *)
Theorem normBy_in_range (rev : revision) (events : list event) :
  Forall request_in_range (posted (run rev events)).
Proof.
  cut (knob_in_range (knob (run rev events))
       /\ Forall request_in_range (posted (run rev events))); [tauto|].
  apply (run_invariant rev
           (fun p => knob_in_range (knob p)
                     /\ Forall request_in_range (posted p))).
  - split; [apply normBy_input_in_range|constructor].
  - intros p e. apply step_in_range.
Qed.

(** A finite, non-negative vector with two distinct values goes through
    the scaler, called with one argument, into the unit interval. *)
Lemma scaled_response_in_unit_interval (qs : list Q) :
  spread qs ->
  Forall in_unit_interval (Rev1.scaleAssociations (Fin <$> qs))
  /\ Forall in_unit_interval (Rev2.scaleAssociations (Fin <$> qs) None)
  /\ Forall in_unit_interval (Rev3.scaleAssociations (Fin <$> qs) None).
Proof.
  intros Hs.
  destruct (min_max_of_spread qs Hs) as (m & M & Hm & HM & Hlow & Hup & Hlt).
  destruct Hlow as [_ Hlow], Hup as [_ Hup].
  split; [|split].
  - eapply maps_each_in_unit_interval; [by apply (rev1_maps_each qs m M)|].
    intros x Hx. cbv beta.
    apply power_unit_interval; [lia|apply unit_interval; auto..].
  - eapply maps_each_in_unit_interval;
      [by apply (rev2_maps_each qs m M Hm HM Hlt None)|].
    intros x Hx. cbv beta.
    apply power_unit_interval; [done|apply unit_interval; auto..].
  - eapply maps_each_in_unit_interval;
      [by apply (rev3_maps_each qs m M Hm HM Hlt 2)|].
    intros x _. apply clamp01_bounds.
Qed.

(** C6: whatever the events, [docAssoc] is empty, or the zeros put in
    when a CSV was loaded, or what one of the three revisions of
    [scaleAssociations], called with one argument, returned on a response
    received earlier; the grid on display is drawn from the current
    [docAssoc].  When a response arrives, [docAssoc] becomes
    [scaleAssociations] of its associations and the grid is redrawn from
    it; for finite non-negative associations with two distinct values
    every entry of it lies in [0,1]. *)
Theorem responses_are_scaled_before_display
    (rev : revision) (events : list event) :
  let scaleAssociations associations :=
    match rev with
    | R1 => Rev1.scaleAssociations associations
    | R2 => Rev2.scaleAssociations associations None
    | R3 => Rev3.scaleAssociations associations None
    end in
  let p := run rev events in
  (docAssoc p = []
   \/ (exists loaded,
         CsvLoaded loaded ∈ events
         /\ docAssoc p = replicate (length (data loaded)) (Fin 0))
   \/ (exists associations,
         ResponseOk associations ∈ events
         /\ docAssoc p = scaleAssociations associations))
  /\ displays_docAssoc p
  /\ forall associations,
       let p' := run rev (events ++ [ResponseOk associations]) in
       docAssoc p' = scaleAssociations associations
       /\ (forall loaded, csvData p = Some loaded ->
             dtmContainer p'
             = Some (displayCSV loaded (queryMap p)
                                (scaleAssociations associations)))
       /\ (forall qs,
             associations = Fin <$> qs ->
             Forall (fun x => 0 <= x) qs -> spread qs ->
             Forall in_unit_interval (docAssoc p')).
Proof.
  cbv zeta. split; [|split].
  - induction events as [|e events IH] using rev_ind; [by left|].
    unfold run. rewrite fold_left_app. fold (run rev events).
    cbn [fold_left].
    assert (Hkeep : docAssoc (step rev (run rev events) e)
                    = docAssoc (run rev events) ->
            docAssoc (step rev (run rev events) e) = []
            \/ (exists loaded,
                  CsvLoaded loaded ∈ events ++ [e]
                  /\ docAssoc (step rev (run rev events) e)
                     = replicate (length (data loaded)) (Fin 0))
            \/ (exists associations,
                  ResponseOk associations ∈ events ++ [e]
                  /\ docAssoc (step rev (run rev events) e)
                     = match rev with
                       | R1 => Rev1.scaleAssociations associations
                       | R2 => Rev2.scaleAssociations associations None
                       | R3 => Rev3.scaleAssociations associations None
                       end)).
    { intros ->. destruct IH as [?|[(c & Hc & ?)|(a & Ha & ?)]].
      - by left.
      - right; left. exists c. split; [|done]. apply elem_of_app. by left.
      - right; right. exists a. split; [|done]. apply elem_of_app. by left. }
    destruct e as [c|i|v| |a|]; cbn [step] in *.
    + right; left. exists c. split; [|done].
      apply elem_of_app. right. apply list_elem_of_singleton. done.
    + apply Hkeep. by destruct (dtmContainer (run rev events) ≫= _) as [[? ?]|].
    + by apply Hkeep.
    + by apply Hkeep.
    + right; right. exists a. split.
      * apply elem_of_app. right. by apply list_elem_of_singleton.
      * cbn [docAssoc]. by destruct rev.
    + by apply Hkeep.
  - apply (run_invariant rev displays_docAssoc); [by left|].
    intros p e Hg. destruct e; cbn [step].
    + right. eexists _, _. split; done.
    + by destruct (dtmContainer p ≫= _) as [[cellText ?]|].
    + done.
    + done.
    + unfold displays_docAssoc. cbn [docAssoc dtmContainer csvData].
      destruct (csvData p) as [loaded|] eqn:E; [right; eauto|].
      destruct Hg as [Hg|(loaded & qm & Hc & _)]; [by left|congruence].
    + done.
  - intros associations. unfold run. rewrite fold_left_app.
    fold (run rev events). cbn [fold_left step docAssoc dtmContainer].
    split; [by destruct rev|]. split.
    + intros loaded ->. by destruct rev.
    + intros qs -> _ Hs.
      destruct (scaled_response_in_unit_interval qs Hs) as (H1 & H2 & H3).
      by destruct rev.
Qed.

(** The raw answer [0, 2] is drawn as [0, 1]. *)
Lemma responses_are_scaled_before_display_witness :
  docAssoc (run R1 ([CsvLoaded two_terms; FormSubmit]
                    ++ [ResponseOk [Fin 0; Fin 2]]))
  = Rev1.scaleAssociations [Fin 0; Fin 2]
  /\ Forall in_unit_interval
       (docAssoc (run R1 ([CsvLoaded two_terms; FormSubmit]
                          ++ [ResponseOk [Fin 0; Fin 2]]))).
Proof.
  destruct (responses_are_scaled_before_display
              R1 [CsvLoaded two_terms; FormSubmit])
    as (_ & _ & H).
  destruct (H [Fin 0; Fin 2]) as (Hd & _ & Hu).
  split; [exact Hd|].
  apply (Hu [0; 2]); [reflexivity| |].
  - repeat constructor; discriminate.
  - exists 0, 2. split; [left|split; [right; left|reflexivity]].
Defined.

(** The query array has one boolean per distinct trimmed header name
    other than [__proto__], in the map [makeQueryMap] builds and in every
    request [compileForm] posts; it has one boolean per header exactly
    when no two headers coincide after trimming and none trims to
    [__proto__]. *)
Theorem query_length (csvData : csv) :
  length (Object_values (makeQueryMap csvData)) = length (query_keys csvData)
  /\ (length (Object_values (makeQueryMap csvData))
      = length (fields (meta csvData))
      <-> NoDup (trim <$> fields (meta csvData))
          /\ proto_key ∉ trim <$> fields (meta csvData))
  /\ forall rev events, Forall query_fits (posted (run rev events)).
Proof.
  split; [apply makeQueryMap_length|]. split.
  - rewrite makeQueryMap_length. apply query_keys_length_all.
  - intros rev events. apply posted_queries_fit.
Qed.

Lemma length_filter_but_one {A} `{EqDecision A} (x : A) (l : list A) :
  NoDup l -> x ∈ l -> S (length (filter (fun y => y <> x) l)) = length l.
Proof.
  intros Hnd Hx. induction Hnd as [|y l Hy Hnd IH]; [by apply elem_of_nil in Hx|].
  destruct (decide (y = x)) as [->|Hne].
  - rewrite filter_cons_False by (intros H; by apply H).
    rewrite filter_all; [done|]. apply Forall_forall. by intros z Hz ->.
  - rewrite filter_cons_True by done. cbn [length]. f_equal. apply IH.
    apply elem_of_cons in Hx as [->|]; done.
Qed.

(** A header that trims to [__proto__] costs the query one boolean: the
    query array is one short of the distinct trimmed header names. *)
Lemma proto_header_is_dropped (csvData : csv) :
  proto_key ∈ trim <$> fields (meta csvData) ->
  S (length (Object_values (makeQueryMap csvData)))
  = length (remove_dups (trim <$> fields (meta csvData))).
Proof.
  intros Hp. rewrite makeQueryMap_length. unfold query_keys.
  set (hs := trim <$> fields (meta csvData)) in *.
  rewrite <- (length_filter_but_one proto_key (remove_dups hs));
    [|apply NoDup_remove_dups|by apply elem_of_remove_dups].
  f_equal. apply Permutation_length, NoDup_Permutation.
  - apply NoDup_remove_dups.
  - apply NoDup_filter, NoDup_remove_dups.
  - intros k. rewrite elem_of_remove_dups, !list_elem_of_filter,
      elem_of_remove_dups. done.
Qed.

(** C8: a header that trims to [__proto__] gets no key.  For the header
    row [__proto__] the query map is empty and the query array has length
    0, with one distinct trimmed header name; a click on the cell of that
    header posts the empty query.  For the header row alpha, [__proto__],
    beta the keys are alpha and beta: a click on beta posts
    [false, true], and the grid redrawn on the response highlights the
    cell of [__proto__], the second column. *)
Theorem proto_header_gets_no_key :
  makeQueryMap proto_csv = []
  /\ length (Object_values (makeQueryMap proto_csv)) = 0%nat
  /\ length (remove_dups (trim <$> fields (meta proto_csv))) = 1%nat
  /\ query <$> posted (run R3 [CsvLoaded proto_csv; HeaderClick 0]) = [[]]
  /\ Object_keys (makeQueryMap proto_among) = [str "alpha"; str "beta"]
  /\ query <$> posted (run R3 [CsvLoaded proto_among; HeaderClick 2])
     = [[false; true]]
  /\ header_cells
       <$> dtmContainer (run R3 [CsvLoaded proto_among; HeaderClick 2;
                                 ResponseOk [Fin 0; Fin 1]])
     = Some [(str "alpha", false); (str "__proto__", true);
             (str "beta", false)].
Proof. repeat split; reflexivity. Qed.

(** C9, as the code has it: every value of the map [makeQueryMap]
    returns is [false]; hence once the CSV is loaded, the requests
    compiled before any header is clicked carry an all-false query,
    whatever is done with the knob or the form. *)
Theorem fresh_query_all_false (rev : revision) (loaded : csv) :
  all_false (Object_values (makeQueryMap loaded))
  /\ forall p events,
       Forall keeps_queryMap events ->
       exists new,
         posted (fold_left (step rev) events (step rev p (CsvLoaded loaded)))
         = posted p ++ new
         /\ Forall (fun r => all_false (query r)) new.
Proof.
  split; [apply makeQueryMap_values_false|]. intros p events Hev.
  destruct (keeps_queryMap_requests rev events Hev
              (step rev p (CsvLoaded loaded))) as (new & Hp & _ & Hn).
  exists new. split; [exact Hp|].
  eapply Forall_impl; [exact Hn|]. intros r Hr. cbn beta in Hr.
  rewrite Hr. cbn [step queryMap]. apply makeQueryMap_values_false.
Qed.

Lemma fresh_query_all_false_witness :
  Forall keeps_queryMap [KnobInput 1; FormSubmit]
  /\ exists new,
       posted (fold_left (step R3) [KnobInput 1; FormSubmit]
                 (step R3 initial_page (CsvLoaded two_terms)))
       = posted initial_page ++ new
       /\ Forall (fun r => all_false (query r)) new.
Proof.
  assert (H : Forall keeps_queryMap [KnobInput 1; FormSubmit]).
  { repeat constructor. }
  split; [exact H|].
  exact (proj2 (fresh_query_all_false R3 two_terms) initial_page _ H).
Defined.

(** C9 as stated fails when the first thing done on the page is a click
    on a header cell: the listener flips the flag before it calls
    [compileForm], so the first request carries a [true]. *)
Theorem first_request_can_follow_a_click :
  query <$> posted (run R1 [CsvLoaded two_terms; HeaderClick 1])
  = [[false; true]]
  /\ query <$> posted (run R2 [CsvLoaded two_terms; HeaderClick 1])
     = [[false; true]]
  /\ query <$> posted (run R3 [CsvLoaded two_terms; HeaderClick 1])
     = [[false; true]]
  /\ ~ Forall (fun r => all_false (query r))
         (posted (run R3 [CsvLoaded two_terms; HeaderClick 1])).
Proof.
  split; [reflexivity|]. split; [reflexivity|]. split; [reflexivity|].
  intros H. apply Forall_inv in H. cbv in H.
  apply Forall_cons in H as [_ H]. apply Forall_inv in H. discriminate.
Qed.

(** ** The argument of the scaler is left alone *)

Section Store.

Import Heap.

Variable h : gmap nat (list number).

Lemma elements_of_run (r : nat) (a : list number) :
  h !! r = Some a -> elements_of r h = Some (a, h).
Proof. intros H. unfold elements_of. by rewrite H. Qed.

Lemma fresh_lookup : h !! fresh (dom h) = None.
Proof. apply not_elem_of_dom, is_fresh. Qed.

Lemma Array_map_run (f : number -> number) (r : nat) (a : list number) :
  h !! r = Some a ->
  Array_map f r h = Some (fresh (dom h), <[fresh (dom h) := f <$> a]> h).
Proof.
  intros H. unfold Array_map, mbind, M_bind.
  by rewrite (elements_of_run r a).
Qed.

Lemma preserved_insert_fresh (a : list number) :
  preserved h (<[fresh (dom h) := a]> h).
Proof.
  intros r b Hr. rewrite lookup_insert_ne; [done|].
  intros <-. by rewrite fresh_lookup in Hr.
Qed.

End Store.

Lemma preserved_trans (h1 h2 h3 : gmap nat (list number)) :
  preserved h1 h2 -> preserved h2 h3 -> preserved h1 h3.
Proof. intros H12 H23 r a Hr. by apply H23, H12. Qed.

(** Two [map]s in a row, as every revision has them. *)
Lemma map_map_run (f g : number -> number) (h : gmap nat (list number))
    (r : nat) (a : list number) :
  h !! r = Some a ->
  leaves_argument
    (fun h => match Heap.Array_map f r h with
              | Some (r1, h1) =>
                  match Heap.Array_map g r1 h1 with
                  | Some (r2, h2) => Some (r2, h2)
                  | None => None
                  end
              | None => None
              end)
    h r (g <$> (f <$> a)).
Proof.
  intros H. set (r1 := fresh (dom h)). set (h1 := <[r1 := f <$> a]> h).
  set (r2 := fresh (dom h1)). set (h2 := <[r2 := g <$> (f <$> a)]> h1).
  assert (H1 : h1 !! r1 = Some (f <$> a)) by apply lookup_insert_eq.
  exists r2, h2. rewrite (Array_map_run h f r a H). fold r1 h1.
  rewrite (Array_map_run h1 g r1 _ H1). fold r2 h2.
  assert (Hp1 : preserved h h1) by apply preserved_insert_fresh.
  assert (Hp2 : preserved h1 h2) by apply preserved_insert_fresh.
  assert (Hp : preserved h h2) by by eapply preserved_trans.
  assert (Hnew : h !! r2 = None).
  { destruct (h !! r2) as [b|] eqn:E; [|done].
    apply Hp1 in E. unfold r2 in E. by rewrite fresh_lookup in E. }
  split; [done|]. split; [congruence|]. split; [by rewrite H; apply Hp|].
  split; [done|]. split; [apply lookup_insert_eq|done].
Qed.

Example Array_fill_writes_in_place :
  Heap.Array_fill (Fin 0) 7%nat {[ 7%nat := [Fin 1; Fin 2] ]}
  = Some (7%nat, {[ 7%nat := [Fin 0; Fin 0] ]}).
Proof. reflexivity. Qed.

(** C10: [scaleAssociations] does not write into the array it is given.
    Run on any store in which [docAssoc] denotes an array, each revision
    returns a reference to a new array holding the scaled values, and
    every array that existed before the call, the argument among them,
    has the contents it had. *)
Theorem scaleAssociations_does_not_mutate
    (h : gmap nat (list number)) (docAssoc : nat) (a : list number) :
  h !! docAssoc = Some a ->
  leaves_argument (Heap.Rev1.scaleAssociations docAssoc) h docAssoc
                  (Rev1.scaleAssociations a)
  /\ (forall exp,
        leaves_argument (Heap.Rev2.scaleAssociations docAssoc exp) h docAssoc
                        (Rev2.scaleAssociations a exp))
  /\ (forall scaleBy,
        leaves_argument (Heap.Rev3.scaleAssociations docAssoc scaleBy) h
                        docAssoc (Rev3.scaleAssociations a scaleBy)).
Proof.
  intros H. split; [|split]; intros;
    unfold Heap.Rev1.scaleAssociations, Heap.Rev2.scaleAssociations,
      Heap.Rev3.scaleAssociations, leaves_argument, mbind, Heap.M_bind,
      mret, Heap.M_ret;
    do 2 (rewrite (elements_of_run h docAssoc a H); cbn beta iota);
    apply (map_map_run _ _ h docAssoc a H).
Qed.

Lemma scaleAssociations_does_not_mutate_witness :
  ({[ 7%nat := [Fin 1; Fin 2] ]} : gmap nat (list number)) !! 7%nat
  = Some [Fin 1; Fin 2]
  /\ leaves_argument (Heap.Rev3.scaleAssociations 7%nat None)
       {[ 7%nat := [Fin 1; Fin 2] ]} 7%nat
       (Rev3.scaleAssociations [Fin 1; Fin 2] None).
Proof.
  assert (H : ({[ 7%nat := [Fin 1; Fin 2] ]} : gmap nat (list number))
                !! 7%nat = Some [Fin 1; Fin 2]) by reflexivity.
  split; [exact H|].
  destruct (scaleAssociations_does_not_mutate _ _ _ H) as (_ & _ & H3).
  apply H3.
Defined.

(** ** Symmetry in the engine *)

Section Sums.

Import Engine.

Lemma Qsum_from_ext (f g : nat -> Q) (n : nat) : forall start,
  (forall k, (start <= k < start + n)%nat -> f k == g k) ->
  Qsum_from start n f == Qsum_from start n g.
Proof.
  induction n as [|n IH]; intros start H; [reflexivity|].
  unfold Qsum_from. simpl. rewrite H by lia.
  apply Qplus_comp; [reflexivity|]. apply IH. intros k Hk. apply H. lia.
Qed.

Lemma Qsum_from_zero (f : nat -> Q) (n : nat) : forall start,
  (forall k, (start <= k < start + n)%nat -> f k == 0) ->
  Qsum_from start n f == 0.
Proof.
  induction n as [|n IH]; intros start H; [reflexivity|].
  unfold Qsum_from. simpl. rewrite H by lia.
  rewrite Qplus_0_l. apply IH. intros k Hk. apply H. lia.
Qed.

(** A sum whose terms vanish away from [i] is its term at [i]. *)
Lemma Qsum_from_single (f : nat -> Q) (i n : nat) : forall start,
  (start <= i < start + n)%nat ->
  (forall k, (start <= k < start + n)%nat -> k <> i -> f k == 0) ->
  Qsum_from start n f == f i.
Proof.
  induction n as [|n IH]; intros start Hi H; [lia|].
  unfold Qsum_from. simpl. destruct (decide (start = i)) as [->|Hne].
  - fold (Qsum_from (S i) n f). rewrite Qsum_from_zero; [lra|].
    intros k Hk. apply H; lia.
  - rewrite (H start) by lia. rewrite Qplus_0_l. apply IH; [lia|].
    intros k Hk. apply H. lia.
Qed.

Lemma Qsum_ext (f g : nat -> Q) (n : nat) :
  (forall k, (k < n)%nat -> f k == g k) -> Qsum n f == Qsum n g.
Proof.
  intros H. apply (Qsum_from_ext f g n 0). intros k Hk. apply H. lia.
Qed.

Lemma Qsum_single (f : nat -> Q) (i n : nat) :
  (i < n)%nat -> (forall k, (k < n)%nat -> k <> i -> f k == 0) ->
  Qsum n f == f i.
Proof.
  intros Hi H. apply (Qsum_from_single f i n 0); [lia|].
  intros k Hk. apply H. lia.
Qed.

Lemma Qsum_mult_comm (f g : nat -> Q) (n : nat) :
  Qsum n (fun k => f k * g k) == Qsum n (fun k => g k * f k).
Proof. apply Qsum_ext. intros k _. apply Qmult_comm. Qed.

End Sums.

Section Conjugation.

Import Engine.

Variable A : matrix.
Variable d : nat -> Q.
Hypothesis square : nrows A = ncols A.

(** Entries of the conjugation of [A] by the diagonal matrix of [d]. *)
Lemma conjugation_entry (i j : nat) :
  (i < nrows A)%nat -> (j < nrows A)%nat ->
  entry (mmul (mmul (diag_mx (nrows A) d) A) (diag_mx (nrows A) d)) i j
  == d i * entry A i j * d j.
Proof.
  intros Hi Hj. cbn [mmul diag_mx entry ncols nrows].
  rewrite <- square.
  etransitivity.
  { apply (Qsum_single _ j); [done|]. intros k Hk Hne. cbv beta.
    destruct (Nat.eqb_spec k j); [done|]. lra. }
  cbv beta. rewrite Nat.eqb_refl.
  apply Qmult_comp; [|reflexivity].
  etransitivity.
  { apply (Qsum_single _ i); [done|]. intros k Hk Hne. cbv beta.
    destruct (Nat.eqb_spec i k); [by subst|]. lra. }
  cbv beta. rewrite Nat.eqb_refl. reflexivity.
Qed.

End Conjugation.

Section Symmetry.

Import Engine.

(** The matrix the Builder assembles is symmetric, entry by entry. *)
Lemma connection_entry_symmetric (X : matrix) (i j : nat) :
  let C := block_mx (mmul (transpose X) X) (transpose X)
                    X (mmul X (transpose X)) in
  entry C i j == entry C j i.
Proof.
  cbn [block_mx mmul transpose entry nrows ncols].
  destruct (Nat.ltb_spec i (ncols X)), (Nat.ltb_spec j (ncols X));
    try reflexivity; apply Qsum_mult_comm.
Qed.

Lemma build_connection_shape (dtm : list (list N)) (A : matrix) :
  build_connection dtm = inr A ->
  A = (let X := of_rows dtm in
       block_mx (mmul (transpose X) X) (transpose X)
                X (mmul X (transpose X)))
  /\ nrows A = (length (hd [] dtm) + length dtm)%nat
  /\ ncols A = (length (hd [] dtm) + length dtm)%nat.
Proof.
  unfold build_connection. destruct (_ || _); [done|]. by intros [= <-].
Qed.

Lemma build_connection_accepts (dtm : list (list N)) :
  valid_corpus dtm -> exists A, build_connection dtm = inr A.
Proof.
  intros (HD & HT & Hrows). unfold build_connection.
  destruct (Nat.eqb_spec (length dtm) 0); [lia|].
  destruct (Nat.eqb_spec (length (hd [] dtm)) 0); [lia|]. cbn [orb].
  assert (E : forallb (fun row => (length row =? length (hd [] dtm))%nat) dtm
              = true).
  { apply forallb_forall. intros row Hrow. apply Nat.eqb_eq.
    rewrite Forall_forall in Hrows. apply Hrows. by apply list_elem_of_In. }
  rewrite E. eauto.
Qed.

Variable power : Q -> Q -> Q.

Lemma normalize_symmetric (A N : matrix) (s : Q) :
  (forall i j, entry A i j == entry A j i) ->
  normalize power A s = inr N ->
  nrows N = nrows A /\ ncols N = nrows A
  /\ forall i j, (i < nrows A)%nat -> (j < nrows A)%nat ->
                 entry N i j == entry N j i.
Proof.
  intros Hsym. unfold normalize.
  destruct (negb (Qle_bool s 0) && Qle_bool s 1); [|done].
  destruct (Nat.eqb_spec (nrows A) (ncols A)) as [Hsq|]; [|done].
  intros [= <-]. split; [done|]. split; [done|]. intros i j Hi Hj.
  rewrite !conjugation_entry by done. rewrite (Hsym i j). ring.
Qed.

Lemma normalize_accepts (A : matrix) (s : Q) :
  nrows A = ncols A -> 0 < s -> s <= 1 ->
  exists N, normalize power A s = inr N.
Proof.
  intros Hsq H0 H1. unfold normalize.
  assert (E0 : Qle_bool s 0 = false).
  { Qle_cases s 0 E0; [lra|done]. }
  assert (E1 : Qle_bool s 1 = true) by by apply Qle_bool_iff.
  rewrite E0, E1, Hsq, Nat.eqb_refl. cbn [negb andb]. eauto.
Qed.

End Symmetry.

(** The matrix the worked example of [src/docs/app_data.md] prints for
    [document_associations()] is not its own transpose. *)
Remark readme_document_associations_not_symmetric :
  list_transpose Engine.readme_document_associations
  <> Engine.readme_document_associations.
Proof. discriminate. Qed.

(** C7: for every corpus and every parameter, the constructor either
    rejects its input or yields a block whose [word_associations] and
    [document_associations] are matrices equal to their own transpose;
    and it rejects no valid corpus with a parameter in (0,1]. *)
Theorem associations_are_symmetric
    (power : Q -> Q -> Q) (dtm : list (list N)) (norm_by : Q) :
  (valid_corpus dtm -> 0 < norm_by -> norm_by <= 1 ->
   exists b, Engine.ConnectionBlock power dtm norm_by = inr b)
  /\ forall b, Engine.ConnectionBlock power dtm norm_by = inr b ->
       exists W Dm,
         Engine.word_associations b = inr W
         /\ Engine.document_associations b = inr Dm
         /\ symmetric W /\ symmetric Dm.
Proof.
  split.
  - intros Hv H0 H1. unfold Engine.ConnectionBlock.
    destruct (build_connection_accepts dtm Hv) as [A HA]. rewrite HA.
    apply build_connection_shape in HA as (_ & HrA & HcA).
    destruct (normalize_accepts power A norm_by) as [N HN];
      [congruence|done..|].
    rewrite HN. eauto.
  - intros b. unfold Engine.ConnectionBlock.
    destruct (Engine.build_connection dtm) as [|A] eqn:EA; [done|].
    destruct (Engine.normalize power A norm_by) as [|N] eqn:EN; [done|].
    intros [= <-]. apply build_connection_shape in EA as (HA & HrA & HcA).
    destruct (normalize_symmetric power A N norm_by) as (HrN & HcN & Hsym);
      [|done|].
    { intros i j. rewrite HA. apply connection_entry_symmetric. }
    unfold Engine.word_associations, Engine.document_associations.
    cbn [Engine.normalized Engine.terms Engine.documents]. eexists _, _.
    split; [done|]. split; [done|].
    split; (split; [done|]; split; [done|]);
      cbn [Engine.transpose Engine.submatrix Engine.entry Engine.nrows
           Engine.ncols];
      intros i j Hi Hj; apply Hsym; lia.
Qed.

Lemma associations_are_symmetric_witness :
  valid_corpus readme_corpus
  /\ exists b W Dm,
       Engine.ConnectionBlock reciprocal_power readme_corpus 1 = inr b
       /\ Engine.word_associations b = inr W
       /\ Engine.document_associations b = inr Dm
       /\ symmetric W /\ symmetric Dm.
Proof.
  assert (Hv : valid_corpus readme_corpus).
  { split; [simpl; lia|]. split; [simpl; lia|]. repeat constructor. }
  split; [exact Hv|].
  destruct (associations_are_symmetric reciprocal_power readme_corpus 1)
    as [Htotal Hsym].
  destruct Htotal as [b Hb]; [exact Hv|reflexivity|discriminate|].
  destruct (Hsym b Hb) as (W & Dm & HW & HD & HsW & HsD).
  exists b, W, Dm. auto.
Defined.

(** * Further properties of the scripts *)

(** ** A [NaN] among the associations *)

Lemma fold_min_step_NaN (args : list number) :
  fold_left min_step args NaN = NaN.
Proof. induction args as [|n args IH]; [done|]. simpl. exact IH. Qed.

Lemma fold_max_step_NaN (args : list number) :
  fold_left max_step args NaN = NaN.
Proof. induction args as [|n args IH]; [done|]. simpl. exact IH. Qed.

Lemma min_step_NaN_r (lowest : number) : min_step lowest NaN = NaN.
Proof. by destruct lowest. Qed.

Lemma max_step_NaN_r (highest : number) : max_step highest NaN = NaN.
Proof. by destruct highest. Qed.

Lemma Math_min_NaN (args : list number) : NaN ∈ args -> Math_min args = NaN.
Proof.
  unfold Math_min. generalize PosInf.
  induction args as [|n args IH]; intros acc H; [by apply elem_of_nil in H|].
  apply elem_of_cons in H as [<-|H]; simpl.
  - rewrite min_step_NaN_r. apply fold_min_step_NaN.
  - by apply IH.
Qed.

Lemma Math_max_NaN (args : list number) : NaN ∈ args -> Math_max args = NaN.
Proof.
  unfold Math_max. generalize NegInf.
  induction args as [|n args IH]; intros acc H; [by apply elem_of_nil in H|].
  apply elem_of_cons in H as [<-|H]; simpl.
  - rewrite max_step_NaN_r. apply fold_max_step_NaN.
  - by apply IH.
Qed.

Lemma js_sub_NaN_r (a : number) : js_sub a NaN = NaN.
Proof. by destruct a. Qed.

Lemma fmap_const_replicate {A B} (f : A -> B) (b : B) (l : list A) :
  (forall x, f x = b) -> f <$> l = replicate (length l) b.
Proof.
  intros H. induction l as [|x l IH]; [done|]. simpl. by rewrite H, <- IH.
Qed.

(** X1: one [NaN] among the associations turns the whole scaled vector
    into [NaN]s, in each revision called as [submitForm] calls it. *)
Theorem one_NaN_spoils_all (rev : revision) (associations : list number) :
  NaN ∈ associations ->
  scale_response rev associations = replicate (length associations) NaN.
Proof.
  intros H.
  destruct rev; unfold scale_response, Rev1.scaleAssociations,
    Rev2.scaleAssociations, Rev3.scaleAssociations;
    rewrite (Math_min_NaN _ H), (Math_max_NaN _ H);
    rewrite <- list_fmap_compose; apply fmap_const_replicate;
    intros x; cbn [compose default]; by rewrite js_sub_NaN_r.
Qed.

Lemma one_NaN_spoils_all_witness :
  NaN ∈ [Fin 1; NaN; Fin 3]
  /\ scale_response R3 [Fin 1; NaN; Fin 3] = replicate 3 NaN.
Proof.
  assert (H : NaN ∈ [Fin 1; NaN; Fin 3]).
  { apply list_elem_of_further, list_elem_of_here. }
  split; [exact H|]. exact (one_NaN_spoils_all R3 _ H).
Defined.

(** ** The upper half of the range *)

Lemma maps_each_lookup (f : Q -> Q) (qs : list Q) (out : list number)
    (i : nat) (x : Q) :
  maps_each f qs out -> qs !! i = Some x ->
  exists o, out !! i = Some (Fin o) /\ o == f x.
Proof.
  intros (outs & -> & Hall) Hi.
  destruct (Forall2_lookup_l _ _ _ _ _ Hall Hi) as (o & Ho & E).
  exists o. by rewrite list_lookup_fmap, Ho.
Qed.

(** With the factor 2 the upper half of the range is flattened to 1. *)
Lemma clamp_upper_half (m M x : Q) :
  m < M -> (m + M) / 2 <= x -> clamp01 ((x - m) * 2 / (M - m)) == 1.
Proof.
  intros Hlt Hx.
  assert (E : (m + M) / 2 == (1 # 2) * m + (1 # 2) * M) by field.
  rewrite E in Hx.
  assert (H1 : 1 <= (x - m) * 2 / (M - m)) by (apply Qle_shift_div_l; lra).
  unfold clamp01. rewrite Q.max_r, Q.min_l by lra. reflexivity.
Qed.

(** X3: with the default factor 2, the third revision scales every entry
    in the upper half of the range, from the midpoint of minimum and
    maximum upwards, to 1 (finite non-negative inputs with two distinct
    values). *)
Theorem third_revision_flattens_upper_half (qs : list Q) :
  Forall (fun x => 0 <= x) qs ->
  spread qs ->
  exists m M,
    lower_bound m qs /\ upper_bound M qs
    /\ forall i x, qs !! i = Some x -> (m + M) / 2 <= x ->
         exists o, Rev3.scaleAssociations (Fin <$> qs) None !! i
                   = Some (Fin o)
                   /\ o == 1.
Proof.
  intros _ Hs.
  destruct (min_max_of_spread qs Hs) as (m & M & Hm & HM & Hlow & Hup & Hlt).
  exists m, M. split; [done|]. split; [done|]. intros i x Hi Hx.
  destruct (maps_each_lookup _ _ _ i x
              (rev3_maps_each qs m M Hm HM Hlt 2) Hi) as (o & Ho & E).
  exists o. split; [exact Ho|]. rewrite E. by apply clamp_upper_half.
Qed.

Lemma third_revision_flattens_upper_half_witness :
  Forall (fun x => 0 <= x) [0; 3; 4]
  /\ spread [0; 3; 4]
  /\ exists m M,
       lower_bound m [0; 3; 4] /\ upper_bound M [0; 3; 4]
       /\ forall i x, [0; 3; 4] !! i = Some x -> (m + M) / 2 <= x ->
            exists o, Rev3.scaleAssociations [Fin 0; Fin 3; Fin 4] None !! i
                      = Some (Fin o)
                      /\ o == 1.
Proof.
  assert (Hpos : Forall (fun x => 0 <= x) [0; 3; 4]).
  { repeat constructor; discriminate. }
  assert (Hs : spread [0; 3; 4]).
  { exists 0, 3. split; [left|split; [right; left|reflexivity]]. }
  split; [exact Hpos|]. split; [exact Hs|].
  exact (third_revision_flattens_upper_half [0; 3; 4] Hpos Hs).
Defined.

(** ** The values the knob can take *)

Lemma sanitize_knob (v : Q) :
  on_step_grid (sanitize (1 # 10000) 1 (1 # 100) v).
Proof.
  unfold sanitize.
  assert (Es : Qle_bool (1 # 100) 0 = false) by reflexivity.
  assert (Emm : Qle_bool (1 # 10000) 1 = true) by reflexivity.
  rewrite Es, Emm. cbn [andb].
  set (w := if negb (Qle_bool (1 # 10000) v) then 1 # 10000
            else if negb (Qle_bool v 1) then 1 else v).
  assert (Hw : 1 # 10000 <= w).
  { unfold w. Qle_cases (1 # 10000) v E1; simpl; [|lra].
    Qle_cases v 1 E2; simpl; lra. }
  set (nearest := Qfloor ((w - (1 # 10000)) / (1 # 100) + (1 # 2))).
  assert (Hn : (0 <= nearest)%Z).
  { apply Qfloor_nonneg.
    assert (0 <= (w - (1 # 10000)) / (1 # 100))
      by (apply Qle_shift_div_l; [reflexivity|lra]).
    lra. }
  assert (HK : Qfloor ((1 - (1 # 10000)) / (1 # 100)) = 99%Z) by reflexivity.
  rewrite HK. exists (Z.min nearest 99). split; [lia|reflexivity].
Qed.

Lemma set_value_on_grid (i : range_input) (v : Q) :
  knob_on_grid i -> knob_on_grid (set_value i v).
Proof.
  intros (Hmin & Hmax & Hstep & _). unfold knob_on_grid, set_value. simpl.
  split; [done|]. split; [done|]. split; [done|].
  rewrite Hmin, Hmax, Hstep. apply sanitize_knob.
Qed.

Lemma normBy_input_on_grid : knob_on_grid normBy_input.
Proof.
  split; [done|]. split; [done|]. split; [done|]. apply sanitize_knob.
Qed.

Lemma compileForm_on_grid (p : page) :
  knob_on_grid (knob p) ->
  Forall (fun r => on_step_grid (normBy r)) (posted p) ->
  knob_on_grid (knob (compileForm p))
  /\ Forall (fun r => on_step_grid (normBy r)) (posted (compileForm p)).
Proof.
  intros Hk Hp. split; [done|]. simpl. apply Forall_app. split; [done|].
  constructor; [|constructor]. apply Hk.
Qed.

(** X5: the [normBy] of every posted request is one of the hundred values
    0.0001, 0.0101, ..., 0.9901: the steps of the knob start at its
    minimum, so the maximum 1 is never sent. *)
Theorem normBy_on_step_grid (rev : revision) (events : list event) :
  Forall (fun r => on_step_grid (normBy r) /\ normBy r <= 9901 # 10000)
         (posted (run rev events)).
Proof.
  cut (Forall (fun r => on_step_grid (normBy r)) (posted (run rev events))).
  { intros H. eapply Forall_impl; [exact H|]. intros r Hr. cbn beta.
    split; [exact Hr|].
    destruct Hr as (k & Hk & ->).
    assert (inject_Z k <= inject_Z 99) by (rewrite <- Zle_Qle; lia).
    assert (E : inject_Z 99 == 99) by reflexivity. lra. }
  cut (knob_on_grid (knob (run rev events))
       /\ Forall (fun r => on_step_grid (normBy r)) (posted (run rev events)));
    [tauto|].
  apply (run_invariant rev
           (fun p => knob_on_grid (knob p)
                     /\ Forall (fun r => on_step_grid (normBy r)) (posted p))).
  - split; [apply normBy_input_on_grid|constructor].
  - intros p e [Hk Hp]. destruct e; cbn [step]; try done.
    + destruct (dtmContainer p ≫= _) as [[cellText ?]|]; [|done].
      by apply compileForm_on_grid.
    + apply compileForm_on_grid; [|done]. by apply set_value_on_grid.
    + by apply compileForm_on_grid.
Qed.

(** The properties below are about strings, objects and the page;
    their numerals are natural numbers. *)
Local Close Scope Q_scope.

(** ** Own properties after an assignment *)

Lemma own_property_replace_eq (o : object) (key : js_string) (v : bool) :
  is_Some (own_property o key) ->
  own_property (replace_property o key v) key = Some v.
Proof.
  induction o as [|[k w] o IH]; simpl; [by intros [? ?]|].
  destruct (decide (k = key)) as [->|Hne]; simpl.
  - by rewrite decide_True.
  - rewrite decide_False by done. exact IH.
Qed.

Lemma own_property_replace_ne (o : object) (key k' : js_string) (v : bool) :
  k' <> key ->
  own_property (replace_property o key v) k' = own_property o k'.
Proof.
  intros Hne. induction o as [|[k w] o IH]; simpl; [done|].
  destruct (decide (k = key)) as [->|Hk]; simpl.
  - by rewrite !decide_False by done.
  - destruct (decide (k = k')); [done|]. exact IH.
Qed.

Lemma own_property_app (o1 o2 : object) (key : js_string) :
  own_property (o1 ++ o2) key
  = match own_property o1 key with
    | Some v => Some v
    | None => own_property o2 key
    end.
Proof.
  induction o1 as [|[k w] o1 IH]; simpl; [done|].
  by destruct (decide (k = key)).
Qed.

Lemma own_property_set_eq (o : object) (key : js_string) (v : bool) :
  key <> proto_key \/ is_Some (own_property o key) ->
  own_property (obj_set o key v) key = Some v.
Proof.
  intros H. unfold obj_set. destruct (own_property o key) as [w|] eqn:E.
  - apply own_property_replace_eq. by rewrite E.
  - destruct H as [H|[? ?]]; [|done]. rewrite decide_False by done.
    rewrite own_property_app, E. simpl. by rewrite decide_True.
Qed.

Lemma own_property_set_ne (o : object) (key k' : js_string) (v : bool) :
  k' <> key -> own_property (obj_set o key v) k' = own_property o k'.
Proof.
  intros Hne. unfold obj_set. destruct (own_property o key) as [w|] eqn:E.
  - by apply own_property_replace_ne.
  - destruct (decide (key = proto_key)); [done|].
    rewrite own_property_app. destruct (own_property o k'); [done|].
    simpl. by rewrite decide_False.
Qed.

Lemma obj_set_NoDup (o : object) (key : js_string) (v : bool) :
  NoDup o.*1 -> NoDup (obj_set o key v).*1.
Proof.
  intros Hnd. rewrite obj_set_keys. case_decide as Hd; [done|].
  apply NoDup_app. split; [done|]. split; [|apply NoDup_singleton].
  intros x Hx Hx'. apply list_elem_of_singleton in Hx'. naive_solver.
Qed.

(** ** Whitespace around headers *)

Lemma trimStart_spaces (ws s : js_string) :
  all_space ws -> trimStart (ws ++ s) = trimStart s.
Proof.
  induction 1 as [|c ws Hc _ IH]; [done|]. simpl. by rewrite Hc.
Qed.

Lemma trimStart_snoc (s : js_string) (c : N) :
  is_trim_space c = false -> trimStart (s ++ [c]) = trimStart s ++ [c].
Proof.
  intros Hc. induction s as [|d s IH]; simpl.
  - by rewrite Hc.
  - destruct (is_trim_space d); [exact IH|done].
Qed.

Lemma trimEnd_cons (c : N) (s : js_string) :
  is_trim_space c = false -> trimEnd (c :: s) = c :: trimEnd s.
Proof.
  intros Hc. unfold trimEnd.
  rewrite reverse_cons, (trimStart_snoc _ c Hc), reverse_app. done.
Qed.

Lemma trimEnd_spaces (s ws : js_string) :
  all_space ws -> trimEnd (s ++ ws) = trimEnd s.
Proof.
  intros H. unfold trimEnd. rewrite reverse_app.
  rewrite trimStart_spaces; [done|].
  unfold all_space in *. rewrite Forall_forall in *. intros c Hc.
  apply H. by apply elem_of_reverse.
Qed.

Lemma trimStart_head (s : js_string) :
  match trimStart s with
  | [] => True
  | c :: _ => is_trim_space c = false
  end.
Proof.
  induction s as [|c s IH]; simpl; [done|].
  destruct (is_trim_space c) eqn:E; [exact IH|exact E].
Qed.

Lemma trimStart_fixed (s : js_string) :
  match s with [] => True | c :: _ => is_trim_space c = false end ->
  trimStart s = s.
Proof. destruct s as [|c s]; simpl; [done|]. by intros ->. Qed.

Lemma trimEnd_head (s : js_string) :
  match s with [] => True | c :: _ => is_trim_space c = false end ->
  match trimEnd s with [] => True | c :: _ => is_trim_space c = false end.
Proof.
  destruct s as [|c s]; [done|]. intros Hc. by rewrite trimEnd_cons.
Qed.

Lemma trimEnd_idemp (s : js_string) : trimEnd (trimEnd s) = trimEnd s.
Proof.
  unfold trimEnd. rewrite reverse_involutive.
  f_equal. apply trimStart_fixed, trimStart_head.
Qed.

Lemma trim_head (s : js_string) :
  match trim s with [] => True | c :: _ => is_trim_space c = false end.
Proof. apply trimEnd_head, trimStart_head. Qed.

Lemma trim_last (s : js_string) :
  match last (trim s) with None => True | Some c => is_trim_space c = false end.
Proof.
  unfold trim, trimEnd. rewrite last_reverse.
  pose proof (trimStart_head (reverse (trimStart s))) as H.
  by destruct (trimStart (reverse (trimStart s))).
Qed.

Lemma trim_idemp (s : js_string) : trim (trim s) = trim s.
Proof.
  unfold trim at 1. rewrite (trimStart_fixed (trim s)) by apply trim_head.
  unfold trim. apply trimEnd_idemp.
Qed.

Lemma trim_padding (before s after : js_string) :
  all_space before -> all_space after ->
  trim (before ++ s ++ after) = trim s.
Proof.
  intros Hb Ha. unfold trim. rewrite trimStart_spaces by done.
  (* trimStart (s ++ after): either s is all space or its first
     non-space stays *)
  induction s as [|c s IH]; simpl.
  - rewrite <- (app_nil_r after), trimStart_spaces by done. done.
  - destruct (is_trim_space c) eqn:E; [exact IH|].
    by rewrite app_comm_cons, trimEnd_spaces.
Qed.

(** X7: every key of the query map is a header without whitespace at
    either end, left alone by a further [trim]. *)
Theorem query_keys_are_trimmed (csvData : csv) :
  Forall (fun k => trim k = k /\ no_outer_space k)
         (Object_keys (makeQueryMap csvData)).
Proof.
  apply Forall_forall. intros k Hk. unfold Object_keys in Hk.
  rewrite own_properties_in_order_Permutation in Hk.
  apply makeQueryMap_keys in Hk as [Hk _].
  apply list_elem_of_fmap in Hk as (h & -> & _).
  split; [apply trim_idemp|]. split; [apply trim_head|apply trim_last].
Qed.

Lemma add_headers_trimmed (hs hs' : list js_string) : forall o,
  trim <$> hs' = trim <$> hs -> add_headers o hs' = add_headers o hs.
Proof.
  revert hs'. induction hs as [|h hs IH]; intros [|h' hs'] o E;
    try discriminate; [done|].
  injection E as E1 E2. rewrite !add_headers_cons, E1. by apply IH.
Qed.

(** X8: whitespace put around the headers of a CSV does not change the
    query map. *)
Theorem padding_headers_keeps_queryMap (c c' : csv) :
  Forall2 padded (fields (meta c)) (fields (meta c')) ->
  makeQueryMap c' = makeQueryMap c.
Proof.
  intros H. unfold makeQueryMap.
  fold (add_headers [] (fields (meta c'))).
  fold (add_headers [] (fields (meta c))).
  apply add_headers_trimmed.
  induction H as [|h h' hs hs' (before & after & Hb & Ha & ->) _ IH];
    [done|].
  rewrite !fmap_cons, IH. f_equal. by apply trim_padding.
Qed.

Lemma padding_headers_keeps_queryMap_witness :
  Forall2 padded [str "alpha"; str "beta"] (fields (meta two_terms))
  /\ makeQueryMap two_terms
     = makeQueryMap
         {| data := []; meta := {| fields := [str "alpha"; str "beta"] |} |}.
Proof.
  assert (H : Forall2 padded [str "alpha"; str "beta"]
                      (fields (meta two_terms))).
  { constructor; [|constructor; [|constructor]].
    - exists [], []. repeat split; constructor.
    - exists (str " "), (str " ").
      repeat split; repeat constructor. }
  split; [exact H|].
  exact (padding_headers_keeps_queryMap
           {| data := []; meta := {| fields := [str "alpha"; str "beta"] |} |}
           two_terms H).
Defined.

(** ** The order of the keys *)

Lemma add_headers_keys_in_order (hs : list js_string) : forall o : object,
  NoDup (o.*1 ++ (trim <$> hs)) -> proto_key ∉ trim <$> hs ->
  (add_headers o hs).*1 = o.*1 ++ (trim <$> hs).
Proof.
  induction hs as [|h hs IH]; intros o Hnd Hp.
  - by rewrite fmap_nil, app_nil_r.
  - rewrite fmap_cons in *. apply not_elem_of_cons in Hp as [Hp1 Hp2].
    rewrite add_headers_cons.
    assert (Hk : (obj_set o (trim h) false).*1 = o.*1 ++ [trim h]).
    { rewrite obj_set_keys, decide_False; [done|].
      intros [Hin|Heq]; [|done].
      apply NoDup_app in Hnd as (_ & Hd & _). apply (Hd _ Hin). left. }
    rewrite IH; [by rewrite Hk, <- app_assoc|by rewrite Hk, <- app_assoc|done].
Qed.

Lemma makeQueryMap_keys_in_order (c : csv) :
  NoDup (trim <$> fields (meta c)) -> proto_key ∉ trim <$> fields (meta c) ->
  (makeQueryMap c).*1 = trim <$> fields (meta c).
Proof.
  intros Hnd Hp. unfold makeQueryMap.
  fold (add_headers [] (fields (meta c))).
  by rewrite add_headers_keys_in_order.
Qed.

Lemma no_index_keys_in_order (o : object) :
  Forall (fun k => array_index k = None) o.*1 ->
  own_properties_in_order o = o.
Proof.
  intros H. unfold own_properties_in_order.
  assert (Hno : Forall (fun p : js_string * bool => ¬ is_Some (array_index p.1)) o).
  { apply Forall_forall. intros p Hp. rewrite Forall_forall in H.
    rewrite (H p.1) by by apply (list_elem_of_fmap_2 fst).
    by intros [? ?]. }
  rewrite (filter_all _ o Hno).
  assert (E : filter (fun p : js_string * bool => is_Some (array_index p.1)) o = []).
  { clear H. induction Hno as [|p o Hp _ IH]; [done|].
    by rewrite (filter_cons_False
                  (fun p : js_string * bool => is_Some (array_index p.1))). }
  by rewrite E.
Qed.

Lemma all_index_keys_sorted (o : object) :
  Forall (fun k => is_Some (array_index k)) o.*1 ->
  own_properties_in_order o = merge_sort index_le o.
Proof.
  intros H. unfold own_properties_in_order.
  assert (Hyes : Forall (fun p : js_string * bool => is_Some (array_index p.1)) o).
  { apply Forall_forall. intros p Hp. rewrite Forall_forall in H.
    apply H. by apply (list_elem_of_fmap_2 fst). }
  rewrite (filter_all _ o Hyes).
  assert (E : filter (fun p : js_string * bool => ¬ is_Some (array_index p.1)) o = []).
  { clear H. induction Hyes as [|p o Hp _ IH]; [done|].
    rewrite (filter_cons_False
               (fun p : js_string * bool => ¬ is_Some (array_index p.1)));
      [done|]. by intros Hn. }
  by rewrite E, app_nil_r.
Qed.

#[local] Instance index_le_total : Total index_le.
Proof. intros p q. unfold index_le. lia. Qed.

#[local] Instance index_le_trans : Transitive index_le.
Proof. intros p q r. unfold index_le. lia. Qed.

(** X9: when all headers spell array indices, the keys of the query map,
    and with them the booleans of the query, come in ascending numeric
    order, whatever the order of the columns. *)
Theorem numeric_headers_are_reordered (c : csv) :
  numeric_headers c ->
  Object_keys (makeQueryMap c) ≡ₚ trim <$> fields (meta c)
  /\ StronglySorted index_order (Object_keys (makeQueryMap c)).
Proof.
  intros [Hnd Hidx].
  assert (Hp : proto_key ∉ trim <$> fields (meta c)).
  { intros Hin. rewrite Forall_forall in Hidx.
    destruct (Hidx _ Hin) as [n Hn]. discriminate Hn. }
  pose proof (makeQueryMap_keys_in_order c Hnd Hp) as Hk.
  unfold Object_keys. split.
  - by rewrite own_properties_in_order_Permutation, Hk.
  - rewrite all_index_keys_sorted by by rewrite Hk.
    apply (StronglySorted_fmap fst index_le index_order).
    + intros p q Hpq. exact Hpq.
    + apply StronglySorted_merge_sort; apply _.
Qed.

Lemma numeric_headers_are_reordered_witness :
  numeric_headers years
  /\ Object_keys (makeQueryMap years) ≡ₚ trim <$> fields (meta years)
  /\ StronglySorted index_order (Object_keys (makeQueryMap years)).
Proof.
  assert (H : numeric_headers years).
  { split.
    - apply NoDup_cons. split; [|apply NoDup_singleton].
      intros Hin. apply list_elem_of_singleton in Hin. discriminate Hin.
    - repeat constructor; eexists; reflexivity. }
  split; [exact H|]. exact (numeric_headers_are_reordered years H).
Defined.

Example years_are_swapped :
  Object_keys (makeQueryMap years) = [str "1962"; str "1963"].
Proof. reflexivity. Qed.

(** ** The query map along a session *)

Lemma reachable_queryMap_in_step (rev : revision) (events : list event) :
  queryMap_in_step (run rev events).
Proof.
  cut (queryMap_in_step (run rev events)
       /\ Forall query_fits (posted (run rev events))); [tauto|].
  apply (run_invariant rev
           (fun p => queryMap_in_step p /\ Forall query_fits (posted p))).
  - split; [done|constructor].
  - intros p e. apply step_fits.
Qed.

Lemma reachable_keys (rev : revision) (events : list event) (c : csv) :
  csvData (run rev events) = Some c ->
  (queryMap (run rev events)).*1 = (makeQueryMap c).*1.
Proof.
  intros Hc. pose proof (reachable_queryMap_in_step rev events) as H.
  unfold queryMap_in_step in H. rewrite Hc in H. apply H.
Qed.

Lemma reachable_keys_NoDup (rev : revision) (events : list event) :
  NoDup (queryMap (run rev events)).*1.
Proof.
  pose proof (reachable_queryMap_in_step rev events) as H.
  unfold queryMap_in_step in H.
  destruct (csvData (run rev events)) as [c|].
  - destruct H as [-> _]. apply makeQueryMap_keys.
  - destruct H as [-> _]. constructor.
Qed.

(** The text of a header cell on display is a key of the query map, or
    [__proto__]. *)
Lemma reachable_cell_text (rev : revision) (events : list event)
    (i : nat) (t : js_string) (hl : bool) :
  dtmContainer (run rev events) ≫= (fun g => header_cells g !! i)
  = Some (t, hl) ->
  t = proto_key \/ is_Some (own_property (queryMap (run rev events)) t).
Proof.
  intros Hcell. pose proof (reachable_queryMap_in_step rev events) as H.
  unfold queryMap_in_step in H.
  destruct (csvData (run rev events)) as [c|].
  - destruct H as [Hk Hg].
    destruct (dtmContainer (run rev events)) as [g|]; [|done]. cbn in Hcell.
    destruct (decide (t = proto_key)) as [|Hne]; [by left|right].
    destruct (own_property (queryMap (run rev events)) t) eqn:E; [eauto|].
    exfalso. apply own_property_None in E. apply E. rewrite Hk.
    apply makeQueryMap_keys. split; [|done]. rewrite <- (Hg g eq_refl).
    apply list_elem_of_fmap. exists (t, hl).
    split; [done|]. by eapply list_elem_of_lookup_2.
  - destruct H as [_ Hg]. by rewrite Hg in Hcell.
Qed.

Lemma own_property_lookup (o : object) (i : nat) (k : js_string) (v : bool) :
  NoDup o.*1 -> o !! i = Some (k, v) -> own_property o k = Some v.
Proof.
  revert i. induction o as [|[k' w] o IH]; intros i Hnd Hi; [done|].
  rewrite fmap_cons in Hnd. apply NoDup_cons in Hnd as [Hk' Hnd]. simpl.
  destruct i as [|i]; simpl in Hi.
  - injection Hi as -> ->. by rewrite decide_True.
  - rewrite decide_False; [by eapply IH|]. intros ->. apply Hk'.
    apply list_elem_of_fmap. exists (k, v).
    split; [done|]. by eapply list_elem_of_lookup_2.
Qed.

Lemma plain_keys_in_order (c : csv) (qm : object) :
  plain_headers c -> qm.*1 = (makeQueryMap c).*1 ->
  qm.*1 = trim <$> fields (meta c) /\ own_properties_in_order qm = qm.
Proof.
  intros (Hnd & Hp & Hidx) Hk.
  rewrite (makeQueryMap_keys_in_order c Hnd Hp) in Hk.
  split; [done|]. apply no_index_keys_in_order. by rewrite Hk.
Qed.

Lemma plain_values (c : csv) (qm : object) (i : nat) (h : js_string) :
  plain_headers c -> qm.*1 = (makeQueryMap c).*1 ->
  fields (meta c) !! i = Some h ->
  Object_values qm !! i = own_property qm (trim h)
  /\ is_Some (own_property qm (trim h)).
Proof.
  intros Hplain Hk Hi.
  destruct (plain_keys_in_order c qm Hplain Hk) as [Hkeys Hord].
  unfold Object_values. rewrite Hord, list_lookup_fmap.
  assert (Hki : qm.*1 !! i = Some (trim h)).
  { rewrite Hkeys, list_lookup_fmap, Hi. reflexivity. }
  apply list_lookup_fmap_Some in Hki as ([k v] & Ek & E). cbn in Ek. subst k.
  rewrite E. cbn.
  assert (Hv : own_property qm (trim h) = Some v).
  { eapply own_property_lookup; [|exact E].
    rewrite Hkeys. apply Hplain. }
  rewrite Hv. eauto.
Qed.

(** X10: with plain headers, the query map keeps its keys in column order
    all along: the i-th boolean of the query is the flag of the i-th
    header. *)
Theorem plain_headers_align
    (rev : revision) (events : list event) (c : csv) :
  csvData (run rev events) = Some c -> plain_headers c ->
  Object_keys (queryMap (run rev events)) = trim <$> fields (meta c)
  /\ forall i h, fields (meta c) !! i = Some h ->
       Object_values (queryMap (run rev events)) !! i
       = own_property (queryMap (run rev events)) (trim h).
Proof.
  intros Hc Hplain. pose proof (reachable_keys rev events c Hc) as Hk.
  destruct (plain_keys_in_order c _ Hplain Hk) as [Hkeys Hord].
  split.
  - unfold Object_keys. by rewrite Hord.
  - intros i h Hi. by apply (plain_values c).
Qed.

Lemma two_terms_plain : plain_headers two_terms.
Proof.
  split; [|split].
  - apply NoDup_cons. split; [|apply NoDup_singleton].
    intros Hin. apply list_elem_of_singleton in Hin. discriminate Hin.
  - intros Hin. apply elem_of_cons in Hin as [Hin|Hin]; [discriminate Hin|].
    apply list_elem_of_singleton in Hin. discriminate Hin.
  - repeat constructor.
Defined.

Lemma plain_headers_align_witness :
  csvData (run R3 [CsvLoaded two_terms; HeaderClick 1]) = Some two_terms
  /\ plain_headers two_terms
  /\ Object_keys (queryMap (run R3 [CsvLoaded two_terms; HeaderClick 1]))
     = trim <$> fields (meta two_terms).
Proof.
  assert (Hc : csvData (run R3 [CsvLoaded two_terms; HeaderClick 1])
               = Some two_terms) by reflexivity.
  split; [exact Hc|]. split; [exact two_terms_plain|].
  exact (proj1 (plain_headers_align R3 _ two_terms Hc two_terms_plain)).
Defined.

(** X11: with plain headers, the grid drawn on a response highlights a
    header cell exactly when the flag of its header is set. *)
Theorem highlight_follows_selection
    (rev : revision) (events : list event) (c : csv)
    (associations : list number) :
  csvData (run rev events) = Some c -> plain_headers c ->
  header_cells
    <$> dtmContainer (run rev (events ++ [ResponseOk associations]))
  = Some ((fun h => (trim h,
                     default false
                       (own_property (queryMap (run rev events)) (trim h))))
          <$> fields (meta c)).
Proof.
  intros Hc Hplain. pose proof (reachable_keys rev events c Hc) as Hk.
  unfold run. rewrite fold_left_app. fold (run rev events).
  cbn [fold_left step dtmContainer]. rewrite Hc. cbn [fmap option_fmap option_map].
  f_equal. unfold displayCSV. cbn [header_cells].
  apply list_eq. intros i. rewrite list_lookup_imap, list_lookup_fmap.
  destruct (fields (meta c) !! i) as [h|] eqn:Hi; [|done]. simpl.
  by rewrite (proj1 (plain_values c _ i h Hplain Hk Hi)).
Qed.

Lemma highlight_follows_selection_witness :
  csvData (run R3 [CsvLoaded two_terms; HeaderClick 1]) = Some two_terms
  /\ plain_headers two_terms
  /\ header_cells
       <$> dtmContainer
             (run R3 ([CsvLoaded two_terms; HeaderClick 1]
                      ++ [ResponseOk [Fin 1; Fin 2]]))
     = Some [(str "alpha", false); (str "beta", true)].
Proof.
  assert (Hc : csvData (run R3 [CsvLoaded two_terms; HeaderClick 1])
               = Some two_terms) by reflexivity.
  split; [exact Hc|]. split; [exact two_terms_plain|].
  exact (highlight_follows_selection R3 _ two_terms [Fin 1; Fin 2]
           Hc two_terms_plain).
Defined.

(** With numeric headers the highlight lands on another column. *)
Example years_highlight_is_misplaced :
  header_cells
    <$> dtmContainer (run R3 [CsvLoaded years; HeaderClick 0; ResponseOk []])
  = Some [(str "1963", false); (str "1962", true)].
Proof. reflexivity. Qed.

(** ** Clicks on header cells *)

Lemma replace_property_back (o : object) (key : js_string) (b b' : bool) :
  own_property o key = Some b ->
  replace_property (replace_property o key b') key b = o.
Proof.
  induction o as [|[k w] o IH]; simpl; [done|].
  destruct (decide (k = key)) as [->|Hne]; simpl.
  - intros [= ->]. by rewrite decide_True.
  - intros H. rewrite decide_False by done. by rewrite IH.
Qed.

Lemma obj_get_own (o : object) (key : js_string) (b : bool) :
  own_property o key = Some b -> obj_get o key = VBool b.
Proof. intros H. unfold obj_get. by rewrite H. Qed.

Lemma toggle_twice (o : object) (key : js_string) :
  key = proto_key \/ is_Some (own_property o key) ->
  let once := obj_set o key (negb (ToBoolean (obj_get o key))) in
  obj_set once key (negb (ToBoolean (obj_get once key))) = o.
Proof.
  intros H. cbv zeta. destruct (own_property o key) as [b|] eqn:E.
  - rewrite (obj_get_own o key b E). cbn [ToBoolean].
    assert (E1 : own_property (obj_set o key (negb b)) key = Some (negb b)).
    { apply own_property_set_eq. right. by rewrite E. }
    rewrite (obj_get_own _ key _ E1). cbn [ToBoolean].
    rewrite negb_involutive.
    unfold obj_set at 1. rewrite E1. unfold obj_set. rewrite E.
    by apply replace_property_back.
  - destruct H as [->|[? ?]]; [|done].
    assert (Hset : forall v, obj_set o proto_key v = o).
    { intros v. unfold obj_set. rewrite E. by rewrite decide_True. }
    by rewrite !Hset.
Qed.

Lemma run_snoc (rev : revision) (events : list event) (e : event) :
  run rev (events ++ [e]) = step rev (run rev events) e.
Proof. unfold run. by rewrite fold_left_app. Qed.

(** X12: clicking the same header cell twice leaves the query map as it
    was. *)
Theorem double_click_restores_queryMap
    (rev : revision) (events : list event) (headerIndex : nat) :
  queryMap (run rev (events ++ [HeaderClick headerIndex;
                                HeaderClick headerIndex]))
  = queryMap (run rev events).
Proof.
  change (events ++ [HeaderClick headerIndex; HeaderClick headerIndex])
    with (events ++ [HeaderClick headerIndex] ++ [HeaderClick headerIndex]).
  rewrite app_assoc, !run_snoc.
  pose proof (reachable_cell_text rev events headerIndex) as Hcell.
  set (p := run rev events) in *. cbn [step].
  destruct (dtmContainer p ≫= _) as [[t hl]|] eqn:E.
  - cbn [compileForm dtmContainer]. rewrite E.
    cbn [compileForm queryMap]. apply toggle_twice. by eapply Hcell.
  - by rewrite E.
Qed.

(** X13: a click on a header cell whose text is not [__proto__] flips the
    flag of that header, leaves every other flag, and posts the new
    query. *)
Theorem click_flips_one_flag
    (rev : revision) (events : list event) (headerIndex : nat)
    (t : js_string) (hl : bool) :
  clicked_cell (run rev events) headerIndex = Some (t, hl) ->
  t <> proto_key ->
  let p := run rev events in
  let p' := run rev (events ++ [HeaderClick headerIndex]) in
  exists b,
    own_property (queryMap p) t = Some b
    /\ own_property (queryMap p') t = Some (negb b)
    /\ (forall k, k <> t ->
          own_property (queryMap p') k = own_property (queryMap p) k)
    /\ (queryMap p').*1 = (queryMap p).*1
    /\ query <$> last (posted p') = Some (Object_values (queryMap p')).
Proof.
  intros Hcell Hne. cbv zeta. rewrite run_snoc.
  destruct (reachable_cell_text rev events headerIndex t hl Hcell)
    as [|[b Hb]]; [done|].
  unfold clicked_cell in Hcell. set (p := run rev events) in *.
  cbn [step]. rewrite Hcell. cbn [compileForm queryMap posted].
  rewrite (obj_get_own _ t b Hb). cbn [ToBoolean].
  exists b. split; [done|]. split; [|split; [|split]].
  - apply own_property_set_eq. by left.
  - intros k Hk. by apply own_property_set_ne.
  - rewrite obj_set_keys, decide_True; [done|]. left.
    destruct (decide (t ∈ (queryMap p).*1)) as [|Hn]; [done|].
    apply own_property_None in Hn. congruence.
  - by rewrite last_snoc.
Qed.

Lemma click_flips_one_flag_witness :
  clicked_cell (run R3 [CsvLoaded two_terms]) 1 = Some (str "beta", false)
  /\ str "beta" <> proto_key
  /\ exists b,
       own_property (queryMap (run R3 [CsvLoaded two_terms])) (str "beta")
       = Some b
       /\ own_property
            (queryMap (run R3 ([CsvLoaded two_terms] ++ [HeaderClick 1])))
            (str "beta")
          = Some (negb b).
Proof.
  assert (Hc : clicked_cell (run R3 [CsvLoaded two_terms]) 1
               = Some (str "beta", false)) by reflexivity.
  assert (Hne : str "beta" <> proto_key) by discriminate.
  split; [exact Hc|]. split; [exact Hne|].
  destruct (click_flips_one_flag R3 [CsvLoaded two_terms] 1 _ _ Hc Hne)
    as (b & H1 & H2 & _).
  exists b. split; [exact H1|exact H2].
Defined.

(** ** The grid *)

Lemma length_scale_response (rev : revision) (associations : list number) :
  length (scale_response rev associations) = length associations.
Proof.
  destruct rev; unfold scale_response, Rev1.scaleAssociations,
    Rev2.scaleAssociations, Rev3.scaleAssociations;
    by rewrite !length_fmap || rewrite !length_map.
Qed.

Lemma fst_pair_fmap {A B} (b : B) (l : list A) :
  ((fun a => (a, b)) <$> l).*1 = l.
Proof. induction l as [|a l IH]; [done|]. cbn. by f_equal. Qed.

(** X14: the grid drawn on a response has one row of cells per line of the
    CSV and one cell per value; the cells of row [i] have an alpha exactly
    when the response has an entry [i], so the lines past the end of a
    short response are drawn with an undefined alpha. *)
Theorem alpha_defined_within_response
    (rev : revision) (p : page) (c : csv) (associations : list number) :
  csvData p = Some c ->
  exists g,
    dtmContainer (step rev p (ResponseOk associations)) = Some g
    /\ length (data_cells g) = length (data c)
    /\ forall i line, data c !! i = Some line ->
         exists row,
           data_cells g !! i = Some row
           /\ row.*1 = line
           /\ Forall (fun cell =>
                        cell.2 = scale_response rev associations !! i
                        /\ (is_Some cell.2 <-> i < length associations))
                     row.
Proof.
  intros Hc. cbn [step dtmContainer]. rewrite Hc. eexists. split; [done|].
  unfold displayCSV. cbn [data_cells]. split; [by rewrite length_imap|].
  intros i line Hi. rewrite list_lookup_imap, Hi. cbn.
  eexists. split; [done|]. split.
  - apply fst_pair_fmap.
  - apply Forall_fmap, Forall_true. intros v. cbn. split; [done|].
    rewrite lookup_lt_is_Some, length_scale_response. done.
Qed.

Lemma alpha_defined_within_response_witness :
  csvData (run R3 [CsvLoaded two_terms]) = Some two_terms
  /\ exists g,
       dtmContainer
         (step R3 (run R3 [CsvLoaded two_terms]) (ResponseOk [Fin 1]))
       = Some g
       /\ length (data_cells g) = length (data two_terms).
Proof.
  assert (Hc : csvData (run R3 [CsvLoaded two_terms]) = Some two_terms)
    by reflexivity.
  split; [exact Hc|].
  destruct (alpha_defined_within_response R3 _ two_terms [Fin 1] Hc)
    as (g & Hg & Hlen & _).
  exists g. split; [exact Hg|exact Hlen].
Defined.

(** X15: right after the CSV is loaded no header cell is highlighted and
    every data cell has alpha 0. *)
Theorem loaded_grid_is_blank (rev : revision) (p : page) (c : csv) :
  dtmContainer (step rev p (CsvLoaded c))
  = Some {| header_cells :=
              (fun h : js_string => (trim h, false)) <$> fields (meta c);
            data_cells :=
              (fun line : list js_string =>
                 (fun v : js_string => (v, Some (Fin 0))) <$> line)
              <$> data c |}.
Proof.
  cbn [step dtmContainer]. unfold displayCSV. f_equal. f_equal.
  - apply list_eq. intros i. rewrite list_lookup_imap, list_lookup_fmap.
    destruct (fields (meta c) !! i) as [h|]; [|done]. cbn. do 2 f_equal.
    destruct (Object_values (makeQueryMap c) !! i) as [b|] eqn:E; [|done].
    cbn. pose proof (makeQueryMap_values_false c) as H.
    unfold all_false in H. rewrite Forall_forall in H. apply H.
    by eapply list_elem_of_lookup_2.
  - apply list_eq. intros i. rewrite list_lookup_imap, list_lookup_fmap.
    destruct (data c !! i) as [line|] eqn:E; [|done]. cbn. do 2 f_equal.
    apply lookup_lt_Some in E.
    assert (Hr : replicate (length (data c)) (Fin 0) !! i = Some (Fin 0))
      by by apply lookup_replicate_2.
    by rewrite Hr.
Qed.

(** ** The list of selected terms *)

Lemma remove_item_filter (header : js_string) (items : list js_string) :
  NoDup items -> remove_item header items = filter (fun k => k <> header) items.
Proof.
  induction 1 as [|item items Hitem Hnd IH]; [done|]. simpl.
  destruct (decide (item = header)) as [->|Hne].
  - rewrite filter_cons_False by (intros H; by apply H).
    symmetry. apply filter_all, Forall_forall. by intros k Hk ->.
  - rewrite filter_cons_True by done. by rewrite IH.
Qed.

Lemma filter_none {A} (P : A -> Prop) `{forall x, Decision (P x)}
    (l : list A) :
  Forall (fun x => ~ P x) l -> filter P l = [].
Proof.
  induction 1 as [|x l Hx _ IH]; [done|].
  by rewrite filter_cons_False.
Qed.

Section Refresh.

Variable queryMap : object.

Let refresh (items : list js_string) (header : js_string) :=
  let items := remove_item header items in
  if ToBoolean (obj_get queryMap header) then items ++ [header] else items.

Let chosen (k : js_string) : Prop := ToBoolean (obj_get queryMap k) = true.

Lemma refresh_all (keys : list js_string) : forall items,
  NoDup keys -> NoDup items ->
  fold_left refresh keys items
  = filter (fun k => k ∉ keys) items ++ filter chosen keys.
Proof.
  induction keys as [|k keys IH]; intros items Hkeys Hitems.
  - cbn. rewrite app_nil_r. symmetry. apply filter_all, Forall_forall.
    intros x _. apply not_elem_of_nil.
  - apply NoDup_cons in Hkeys as [Hk Hkeys]. cbn [fold_left].
    assert (Hrm : NoDup (remove_item k items)).
    { rewrite remove_item_filter by done. by apply NoDup_filter. }
    assert (Hout : k ∉ remove_item k items).
    { rewrite remove_item_filter by done.
      intros Hin. apply list_elem_of_filter in Hin as [Hne _]. by apply Hne. }
    assert (Hone : forall x, x ∈ remove_item k items -> x ∉ [k]).
    { intros x Hx Hx'. apply list_elem_of_singleton in Hx'. by subst. }
    assert (Hfil : filter (fun x => x ∉ keys) (remove_item k items)
                   = filter (fun x => x ∉ k :: keys) items).
    { rewrite remove_item_filter by done. rewrite list_filter_filter.
      apply list_filter_iff. intros x. rewrite not_elem_of_cons. tauto. }
    unfold refresh at 2. cbv zeta.
    destruct (ToBoolean (obj_get queryMap k)) eqn:E.
    + rewrite IH; [|done|].
      * rewrite filter_app, Hfil, <- app_assoc. f_equal.
        rewrite (filter_cons_True chosen) by exact E.
        by rewrite filter_cons_True.
      * apply NoDup_app. split; [done|]. split; [done|apply NoDup_singleton].
    + rewrite IH by done. rewrite Hfil. f_equal.
      rewrite (filter_cons_False chosen); [done|]. unfold chosen. by rewrite E.
Qed.

End Refresh.

Lemma ui_run_snoc (rev : revision) (events : list ui_event) (e : ui_event) :
  ui_run rev (events ++ [e]) = ui_step rev (ui_run rev events) e.
Proof. unfold ui_run. by rewrite fold_left_app. Qed.

Lemma shown_ui_step (rev : revision) (s : screen) (e : ui_event) :
  shown (ui_step rev s e)
  = match e with OnPage e => step rev (shown s) e | _ => shown s end.
Proof.
  destruct e as [e|i|i]; cbn [ui_step]; [done| |];
    by destruct (clicked_cell (shown s) i) as [[? ?]|].
Qed.

Lemma shown_ui_run (rev : revision) (events : list ui_event) :
  shown (ui_run rev events) = run rev (page_events events).
Proof.
  induction events as [|e events IH] using rev_ind; [done|].
  rewrite ui_run_snoc, shown_ui_step. unfold page_events.
  rewrite omap_app. fold (page_events events).
  destruct e; cbn [omap]; rewrite ?app_nil_r; try done.
  unfold run. rewrite fold_left_app. cbn [fold_left].
  by rewrite IH.
Qed.

Lemma elem_of_Object_keys (o : object) (k : js_string) :
  k ∈ Object_keys o <-> k ∈ o.*1.
Proof.
  unfold Object_keys. by rewrite own_properties_in_order_Permutation.
Qed.

Lemma NoDup_Object_keys (o : object) : NoDup o.*1 -> NoDup (Object_keys o).
Proof.
  unfold Object_keys. by rewrite own_properties_in_order_Permutation.
Qed.

Lemma own_property_elem (o : object) (k : js_string) (v : bool) :
  own_property o k = Some v -> (k, v) ∈ o.
Proof.
  induction o as [|[k' w] o IH]; simpl; [done|].
  destruct (decide (k' = k)) as [->|Hne].
  - intros [= ->]. left.
  - intros H. right. by apply IH.
Qed.

Lemma selected_keys_spec (o : object) (k : js_string) :
  k ∈ selected_keys o <-> own_property o k = Some true.
Proof.
  unfold selected_keys. rewrite list_elem_of_filter, elem_of_Object_keys.
  unfold obj_get. destruct (own_property o k) as [b|] eqn:E.
  - cbn [ToBoolean]. split; [by intros [-> _]|]. intros [= ->].
    split; [done|]. apply own_property_elem in E.
    apply list_elem_of_fmap. by exists (k, true).
  - apply own_property_None in E. split; [by intros [_ ?]|done].
Qed.

Lemma selected_keys_none (o : object) :
  all_false (Object_values o) -> selected_keys o = [].
Proof.
  intros Hf. destruct (selected_keys o) as [|k l] eqn:E; [done|].
  assert (Hk : k ∈ selected_keys o) by (rewrite E; left).
  apply selected_keys_spec, own_property_elem in Hk.
  unfold all_false in Hf. rewrite Object_values_Permutation in Hf.
  rewrite Forall_forall in Hf.
  assert (true = false); [|done]. apply Hf.
  apply list_elem_of_fmap. by exists (k, true).
Qed.

(** One event that is not a load keeps the list of selected terms equal
    to the selected keys. *)
Lemma ui_step_terms (rev : revision) (s : screen) (e : ui_event) :
  not_a_load e ->
  NoDup (queryMap (shown s)).*1 ->
  terms_displayed (side_panel s) = selected_keys (queryMap (shown s)) ->
  terms_displayed (side_panel (ui_step rev s e))
  = selected_keys (queryMap (shown (ui_step rev s e))).
Proof.
  intros He Hnd Hs. destruct e as [e|i|i]; cbn [ui_step].
  - cbn [shown side_panel]. destruct e as [c|i|v| | |]; try done.
    + unfold clicked_cell. cbn [step].
      destruct (dtmContainer (shown s) ≫= _) as [[t hl]|]; [|done].
      cbn [compileForm queryMap updateTermsDisplayed terms_displayed].
      set (flag := negb _). set (qm := obj_set _ _ _).
      assert (Hk : forall k, k ∈ qm.*1 <-> k ∈ (queryMap (shown s)).*1 \/ (k = t /\ t <> proto_key)).
      { intros k. unfold qm. rewrite obj_set_keys.
        destruct (decide _) as [[?|?]|Hn].
        - naive_solver.
        - naive_solver.
        - rewrite elem_of_app, list_elem_of_singleton. naive_solver. }
      assert (Hnd' : NoDup qm.*1).
      { unfold qm. rewrite obj_set_keys. destruct (decide _) as [|Hn]; [done|].
        apply NoDup_app. split; [done|]. split; [|apply NoDup_singleton].
        intros k Hin Hk'. apply list_elem_of_singleton in Hk'. subst.
        apply Hn. by left. }
      rewrite refresh_all.
      * rewrite filter_none; [done|].
        apply Forall_forall. intros k Hin Hout. apply Hout.
        apply elem_of_Object_keys, Hk. left.
        rewrite Hs in Hin. apply selected_keys_spec in Hin.
        destruct (decide (k ∈ (queryMap (shown s)).*1)) as [|Hn]; [done|].
        apply own_property_None in Hn. congruence.
      * by apply NoDup_Object_keys.
      * rewrite Hs. unfold selected_keys. apply NoDup_filter.
        by apply NoDup_Object_keys.
  - by destruct (clicked_cell (shown s) i) as [[? ?]|].
  - by destruct (clicked_cell (shown s) i) as [[? ?]|].
Qed.

Lemma ui_run_load_snoc (rev : revision) (c : csv)
    (events : list ui_event) (e : ui_event) :
  ui_run rev (OnPage (CsvLoaded c) :: events ++ [e])
  = ui_step rev (ui_run rev (OnPage (CsvLoaded c) :: events)) e.
Proof. by rewrite app_comm_cons, ui_run_snoc. Qed.

(** X16: in a session that loads the CSV once, at its start, the list
    "Selected Terms" holds, after every event, exactly the keys of the
    query map whose flag is set, each once, in the order of the keys. *)
Theorem selected_terms_follow_queryMap
    (rev : revision) (c : csv) (events : list ui_event) :
  Forall not_a_load events ->
  let s := ui_run rev (OnPage (CsvLoaded c) :: events) in
  terms_displayed (side_panel s) = selected_keys (queryMap (shown s))
  /\ forall k, k ∈ terms_displayed (side_panel s)
               <-> own_property (queryMap (shown s)) k = Some true.
Proof.
  intros He. cbv zeta.
  cut (terms_displayed (side_panel (ui_run rev (OnPage (CsvLoaded c) :: events)))
       = selected_keys
           (queryMap (shown (ui_run rev (OnPage (CsvLoaded c) :: events))))).
  { intros ->. split; [done|]. intros k. apply selected_keys_spec. }
  induction events as [|e events IH] using rev_ind.
  - cbn. symmetry. apply selected_keys_none, makeQueryMap_values_false.
  - apply Forall_app in He as [He He']. apply Forall_inv in He'.
    rewrite ui_run_load_snoc. apply ui_step_terms; [done| |by apply IH].
    rewrite shown_ui_run. apply reachable_keys_NoDup.
Qed.

Lemma selected_terms_follow_queryMap_witness :
  Forall not_a_load
    [OnPage (HeaderClick 1); MouseOver 0; OnPage (HeaderClick 0);
     OnPage (KnobInput (1 # 4)); OnPage (HeaderClick 1)]
  /\ terms_displayed
       (side_panel
          (ui_run R3
             (OnPage (CsvLoaded two_terms)
              :: [OnPage (HeaderClick 1); MouseOver 0; OnPage (HeaderClick 0);
                  OnPage (KnobInput (1 # 4)); OnPage (HeaderClick 1)])))
     = [str "alpha"].
Proof.
  assert (H : Forall not_a_load
                [OnPage (HeaderClick 1); MouseOver 0; OnPage (HeaderClick 0);
                 OnPage (KnobInput (1 # 4)); OnPage (HeaderClick 1)])
    by (repeat constructor).
  split; [exact H|].
  rewrite (proj1 (selected_terms_follow_queryMap R3 two_terms _ H)).
  reflexivity.
Defined.

Lemma ui_step_header (rev : revision) (c : csv) (s : screen) (e : ui_event) :
  not_a_load e ->
  queryMap_in_step (shown s) ->
  csvData (shown s) = Some c ->
  shows_header_of c (side_panel s) ->
  csvData (shown (ui_step rev s e)) = Some c
  /\ shows_header_of c (side_panel (ui_step rev s e)).
Proof.
  intros He Hq Hc Hs.
  assert (Hcell : forall i t hl,
            clicked_cell (shown s) i = Some (t, hl) ->
            t ∈ trim <$> fields (meta c)).
  { intros i t hl. unfold clicked_cell. unfold queryMap_in_step in Hq.
    rewrite Hc in Hq. destruct Hq as [_ Hg].
    destruct (dtmContainer (shown s)) as [g|]; [|done]. cbn.
    intros Hi. rewrite <- (Hg g eq_refl). apply list_elem_of_fmap.
    exists (t, hl). split; [done|]. by eapply list_elem_of_lookup_2. }
  destruct e as [e|i|i]; cbn [ui_step].
  - cbn [shown side_panel]. split.
    + destruct e as [?|i|v| | |]; cbn [step]; try done.
      by destruct (dtmContainer (shown s) ≫= _) as [[? ?]|].
    + destruct e as [?|i|v| | |]; try done.
      by destruct (clicked_cell (shown s) i).
  - destruct (clicked_cell (shown s) i) as [[t hl]|] eqn:E; [|done].
    split; [done|]. right. by eapply Hcell.
  - destruct (clicked_cell (shown s) i) as [[t hl]|] eqn:E; [|done].
    split; [done|]. by left.
Qed.

(** X17: in a session that loads the CSV once, at its start, the box
    "Header Cell Text" is empty or shows one of the trimmed headers of
    that CSV. *)
Theorem header_display_shows_a_header
    (rev : revision) (c : csv) (events : list ui_event) :
  Forall not_a_load events ->
  shows_header_of c
    (side_panel (ui_run rev (OnPage (CsvLoaded c) :: events))).
Proof.
  intros He.
  cut (csvData (shown (ui_run rev (OnPage (CsvLoaded c) :: events))) = Some c
       /\ shows_header_of c
            (side_panel (ui_run rev (OnPage (CsvLoaded c) :: events))));
    [tauto|].
  induction events as [|e events IH] using rev_ind.
  - split; [done|by left].
  - apply Forall_app in He as [He He']. apply Forall_inv in He'.
    rewrite ui_run_load_snoc. destruct (IH He) as [Hc Hs].
    apply ui_step_header; [done| |done|done].
    rewrite shown_ui_run. apply reachable_queryMap_in_step.
Qed.

Lemma header_display_shows_a_header_witness :
  Forall not_a_load [OnPage (HeaderClick 0); MouseOver 1]
  /\ shows_header_of two_terms
       (side_panel
          (ui_run R3
             (OnPage (CsvLoaded two_terms)
              :: [OnPage (HeaderClick 0); MouseOver 1]))).
Proof.
  assert (H : Forall not_a_load [OnPage (HeaderClick 0); MouseOver 1])
    by (repeat constructor).
  split; [exact H|].
  exact (header_display_shows_a_header R3 two_terms _ H).
Defined.
